(** * MimeAPI: the command matching engine of the Express server

    A shallow embedding of [cleanTranscribedText] and [findMatchingCommand]
    (the server file, lines 435-623) together with the handful of
    JavaScript built-ins they call, and the properties of the matching
    engine stated over it. *)

From Stdlib Require Import List ZArith NArith Bool String Ascii Floats Lia.
Import ListNotations.

Set Implicit Arguments.

(** ** The JavaScript built-ins used by the matcher *)

Module JS.

(** A JavaScript string is a sequence of UTF-16 code units. *)
Definition jsstring : Type := list N.

(** A string literal of the source, for literals made of ASCII characters. *)
Definition lit (s : string) : jsstring :=
  List.map N_of_ascii (list_ascii_of_string s).

(** The values a caller can pass: [req.body] fields are arbitrary JSON, and
    database columns may be [null]. *)
Inductive value : Type :=
| VUndefined
| VNull
| VBoolean (b : bool)
| VNumber (x : float)
| VString (s : jsstring)
| VObject.

Inductive jstype : Type :=
| TUndefined | TObject | TBoolean | TNumber | TString.

(** [typeof v] *)
Definition typeof (v : value) : jstype :=
  match v with
  | VUndefined => TUndefined
  | VNull => TObject
  | VBoolean _ => TBoolean
  | VNumber _ => TNumber
  | VString _ => TString
  | VObject => TObject
  end.

Definition jstype_eqb (a b : jstype) : bool :=
  match a, b with
  | TUndefined, TUndefined | TObject, TObject | TBoolean, TBoolean
  | TNumber, TNumber | TString, TString => true
  | _, _ => false
  end.

(** ToBoolean: [undefined], [null], [false], [0], [-0], [NaN] and the empty
    string are falsy. *)
Definition toBoolean (v : value) : bool :=
  match v with
  | VUndefined | VNull => false
  | VBoolean b => b
  | VNumber x => negb (PrimFloat.eqb x PrimFloat.zero || PrimFloat.is_nan x)
  | VString s => match s with [] => false | _ :: _ => true end
  | VObject => true
  end.

(** [s.length] *)
Definition length (s : jsstring) : Z := Z.of_nat (List.length s).

(** [a === b] on strings *)
Fixpoint streq (a b : jsstring) : bool :=
  match a, b with
  | [], [] => true
  | x :: a', y :: b' => N.eqb x y && streq a' b'
  | _, _ => false
  end.

(** [arr.includes(c)] *)
Definition includes (arr : list N) (c : N) : bool := existsb (N.eqb c) arr.

(** [arr.splice(index, 1)] for a non-negative [index]: the start is clamped
    to the length of the array, so nothing is removed out of range. *)
Definition splice1 (A : Type) (index : nat) (arr : list A) : list A :=
  firstn index arr ++ skipn (S index) arr.

(** The characters matched by [\s] and stripped by [trim()]: WhiteSpace and
    LineTerminator of ECMAScript. *)
Definition isWhiteSpace (c : N) : bool :=
  ((9 <=? c) && (c <=? 13) || (c =? 32) || (c =? 160) || (c =? 5760)
   || (8192 <=? c) && (c <=? 8202) || (c =? 8232) || (c =? 8233)
   || (c =? 8239) || (c =? 8287) || (c =? 12288) || (c =? 65279))%N.

Definition SPACE : N := 32.

(** [s.replace(/\s+/g, ' ')]: scanning left to right, every maximal run of
    white space is replaced by one space.  [inRun] tells that the unit
    before the current one belonged to the run being replaced. *)
Fixpoint replaceRuns (inRun : bool) (s : jsstring) : jsstring :=
  match s with
  | [] => []
  | c :: s' =>
      if isWhiteSpace c
      then (if inRun then replaceRuns true s' else SPACE :: replaceRuns true s')
      else c :: replaceRuns false s'
  end.

Definition replaceWhiteSpace (s : jsstring) : jsstring := replaceRuns false s.

Fixpoint trimStart (s : jsstring) : jsstring :=
  match s with
  | [] => []
  | c :: s' => if isWhiteSpace c then trimStart s' else s
  end.

Definition trimEnd (s : jsstring) : jsstring := rev (trimStart (rev s)).

(** [s.trim()] *)
Definition trim (s : jsstring) : jsstring := trimEnd (trimStart s).

(** [t] is a prefix of [s] *)
Fixpoint isPrefix (t s : jsstring) : bool :=
  match t, s with
  | [], _ => true
  | x :: t', y :: s' => N.eqb x y && isPrefix t' s'
  | _ :: _, [] => false
  end.

(** [s.startsWith(t)] *)
Definition startsWith (s t : jsstring) : bool := isPrefix t s.

(** [s.endsWith(t)]: [t] is compared with the last [t.length] units of [s]. *)
Definition endsWith (s t : jsstring) : bool :=
  (List.length t <=? List.length s)%nat
  && streq (skipn (List.length s - List.length t) s) t.

Fixpoint indexOfFrom (s t : jsstring) (i : Z) : Z :=
  if isPrefix t s then i
  else match s with
       | [] => (-1)%Z
       | _ :: s' => indexOfFrom s' t (i + 1)%Z
       end.

(** [s.indexOf(t)]: the position of the first occurrence, or -1. *)
Definition indexOf (s t : jsstring) : Z := indexOfFrom s t 0%Z.

Definition clamp (len i : Z) : Z := Z.min (Z.max i 0) len.

(** [s.substring(start, end)]: both bounds are clamped to [0, s.length] and
    swapped when [start] is the greater one. *)
Definition substring (s : jsstring) (indexStart indexEnd : Z) : jsstring :=
  let len := length s in
  let finalStart := clamp len indexStart in
  let finalEnd := clamp len indexEnd in
  let from := Z.min finalStart finalEnd in
  let to := Z.max finalStart finalEnd in
  firstn (Z.to_nat (to - from)) (skipn (Z.to_nat from) s).

(** [s.substring(start)] *)
Definition substringFrom (s : jsstring) (indexStart : Z) : jsstring :=
  substring s indexStart (length s).

(** [toLowerCase] restricted to the ASCII letters; the run time's function
    coincides with it on every string of ASCII characters. *)
Definition lowerUnit (c : N) : N :=
  if ((65 <=? c) && (c <=? 90))%N then (c + 32)%N else c.

Definition toLowerCase_ascii (s : jsstring) : jsstring := List.map lowerUnit s.

Definition isAscii (s : jsstring) : Prop := Forall (fun c => (c < 128)%N) s.

End JS.

Import JS.

(** ** The text cleaner *)

(** [const punctuationChars]: comma, period, question mark, exclamation
    mark, semicolon, colon, double quote, single quote, parentheses,
    brackets, braces, hyphen, underscore, slash and backslash, in the order
    of the source and as code units. *)
Definition punctuationChars : list N :=
  [44; 46; 63; 33; 59; 58; 34; 39; 40; 41; 91; 93; 123; 125; 45; 95; 47; 92]%N.

Definition isPunctuation (c : N) : bool := includes punctuationChars c.

(** The first loop of [cleanTranscribedText],
    [for (let i = textArray.length - 1; i >= 0; i--)], with [n] the number
    of iterations left (so that the current index is [n - 1]):
    [punctuationIndexes.push(i)] whenever [textArray[i]] is punctuation. *)
Fixpoint findPunctuation (textArray : list N) (n : nat)
    (punctuationIndexes : list nat) : list nat :=
  match n with
  | O => punctuationIndexes
  | S i =>
      findPunctuation textArray i
        (match nth_error textArray i with
         | Some c =>
             if includes punctuationChars c
             then punctuationIndexes ++ [i]
             else punctuationIndexes
         | None => punctuationIndexes
         end)
  end.

(** The second loop,
    [for (let i = punctuationIndexes.length - 1; i >= 0; i--)], again with
    [n] the number of iterations left: [textArray.splice(index, 1)] with
    [index = punctuationIndexes[i]]. *)
Fixpoint removePunctuation (punctuationIndexes : list nat) (n : nat)
    (textArray : list N) : list N :=
  match n with
  | O => textArray
  | S i =>
      let index := nth i punctuationIndexes O in
      removePunctuation punctuationIndexes i (splice1 index textArray)
  end.

Definition cleanString (text : jsstring) : jsstring :=
  let textArray := text in
  let punctuationIndexes := findPunctuation textArray (List.length textArray) [] in
  let textArray :=
    removePunctuation punctuationIndexes (List.length punctuationIndexes) textArray in
  trim (replaceWhiteSpace textArray).

(** [function cleanTranscribedText(text)] *)
Definition cleanTranscribedText (text : value) : jsstring :=
  if negb (toBoolean text) || negb (jstype_eqb (typeof text) TString)
  then []
  else match text with
       | VString s => cleanString s
       | _ => []
       end.


(** ** The data model *)

(** A row of the [commands] table, as [pool.query] returns it.
    [parameter_name] is [None] for [null]. *)
Record Command : Type := mkCommand {
  command_name : jsstring;
  has_parameter : bool;
  parameter_name : option jsstring;
  workflow_id : value
}.

(** A nullable text column as a JavaScript value. *)
Definition column (c : option jsstring) : value :=
  match c with
  | Some s => VString s
  | None => VNull
  end.

(** The object returned by [findMatchingCommand]: a failure carries only
    [success: false] and [message]; a success carries [command],
    [parameter] ([None] for [null]), [workflow_id] and [message]. *)
Inductive MatchResult : Type :=
| Failure (message : jsstring)
| Success (command : jsstring) (parameter : option jsstring)
          (workflow_id : value) (message : jsstring).

Definition success (r : MatchResult) : bool :=
  match r with
  | Failure _ => false
  | Success _ _ _ _ => true
  end.

Definition message (r : MatchResult) : jsstring :=
  match r with
  | Failure m => m
  | Success _ _ _ m => m
  end.

(** What awaiting [pool.query(query, [userId])] gives: the rows of the
    user, ordered by the query, or a rejection. *)
Inductive QueryResult : Type :=
| Rows (rows : list Command)
| Rejected (error : value).

(** A call of the [async] function either returns or throws a value. *)
Inductive Outcome (A : Type) : Type :=
| Return (a : A)
| Throw (error : value).

Arguments Return {A} a.
Arguments Throw {A} error.

(** ** The matching engine *)

Section Matcher.

(** [String.prototype.toLowerCase] of the run time: its Unicode case table
    is not part of the repository, so the engine is stated over any such
    function. *)
Variable toLowerCase : jsstring -> jsstring.

(** The function lowercases strings of ASCII characters as the run time
    does. *)
Definition lowercasesAscii : Prop :=
  forall s, isAscii s -> toLowerCase s = toLowerCase_ascii s.

(** The body of the first loop over [result.rows] (exact match): [Some] is
    the [return] of the function, [None] falls through to the next row. *)
Definition exactMatch (cleanedUserInput : jsstring) (command : Command)
    : option MatchResult :=
  if negb (has_parameter command) then
    let cleanedSavedCommand := cleanTranscribedText (VString (command_name command)) in
    if streq (toLowerCase cleanedUserInput) (toLowerCase cleanedSavedCommand)
    then Some (Success (command_name command) None (workflow_id command)
                 (lit "Ready to execute workflow"))
    else None
  else None.

(** [const prefix] and [const suffix] of a parameterized row whose parameter
    was found at [paramIndex]. *)
Definition paramIndexOf (command : Command) : Z :=
  let cleanedSavedCommand := cleanTranscribedText (VString (command_name command)) in
  let cleanedSavedParam := cleanTranscribedText (column (parameter_name command)) in
  let savedCommandLower := toLowerCase cleanedSavedCommand in
  let savedParamLower := toLowerCase cleanedSavedParam in
  indexOf savedCommandLower savedParamLower.

Definition prefixOf (command : Command) : jsstring :=
  let cleanedSavedCommand := cleanTranscribedText (VString (command_name command)) in
  substring cleanedSavedCommand 0 (paramIndexOf command).

Definition suffixOf (command : Command) : jsstring :=
  let cleanedSavedCommand := cleanTranscribedText (VString (command_name command)) in
  let cleanedSavedParam := cleanTranscribedText (column (parameter_name command)) in
  substringFrom cleanedSavedCommand (paramIndexOf command + length cleanedSavedParam).

(** The body of the second loop (parameterized match); [None] stands for
    both [continue] and the end of the body. *)
Definition parameterMatch (cleanedUserInput : jsstring) (command : Command)
    : option MatchResult :=
  if has_parameter command && toBoolean (column (parameter_name command)) then
    let paramIndex := paramIndexOf command in
    if (paramIndex =? -1)%Z then None
    else
      let prefix := prefixOf command in
      let suffix := suffixOf command in
      let inputLower := toLowerCase cleanedUserInput in
      let prefixLower := toLowerCase prefix in
      let suffixLower := toLowerCase suffix in
      if startsWith inputLower prefixLower && endsWith inputLower suffixLower then
        let paramValue :=
          trim (substring cleanedUserInput (length prefix)
                  (length cleanedUserInput - length suffix)) in
        Some (Success (command_name command) (Some paramValue)
                (workflow_id command)
                (lit "Ready to execute workflow with parameter"))
      else None
  else None.

(** [for (const command of result.rows) { body }]: the first row whose body
    returns ends the function. *)
Fixpoint forRows (body : Command -> option MatchResult) (rows : list Command)
    : option MatchResult :=
  match rows with
  | [] => None
  | command :: rest =>
      match body command with
      | Some r => Some r
      | None => forRows body rest
      end
  end.

(** Steps 2 and 3 of [findMatchingCommand], on a non-empty cleaned input and
    the rows of the user. *)
Definition matchRows (cleanedUserInput : jsstring) (rows : list Command)
    : MatchResult :=
  match forRows (exactMatch cleanedUserInput) rows with
  | Some r => r
  | None =>
      match forRows (parameterMatch cleanedUserInput) rows with
      | Some r => r
      | None => Failure (lit "No matching command found")
      end
  end.

(** [async function findMatchingCommand(userInput, userId, requestId)].
    [queried] is the outcome of the query for [userId]; it is only looked at
    once the cleaned input is known to be non-empty.  [requestId] is used
    for logging only.  The [catch] clause rethrows. *)
Definition findMatchingCommand (userInput : value)
    (queried : QueryResult) : Outcome MatchResult :=
  let cleanedUserInput := cleanTranscribedText userInput in
  if negb (toBoolean (VString cleanedUserInput)) then
    Return (Failure (lit "Empty command after cleaning"))
  else
    match queried with
    | Rejected error => Throw error
    | Rows rows =>
        if (List.length rows =? 0)%nat then
          Return (Failure (lit "No commands found for this user"))
        else Return (matchRows cleanedUserInput rows)
    end.

End Matcher.

(** ** Notions used in the statements *)

(** [t] occurs in [s] as a run of consecutive code units. *)
Definition Substring (t s : jsstring) : Prop :=
  exists pre post, s = pre ++ t ++ post.

(** [textArray[i]] is a punctuation character. *)
Definition punctuationAt (textArray : list N) (i : nat) : bool :=
  match nth_error textArray i with
  | Some c => includes punctuationChars c
  | None => false
  end.

(** No two white space units in a row, given whether the unit before was
    one. *)
Fixpoint spaced (prev : bool) (s : jsstring) : bool :=
  match s with
  | [] => true
  | c :: s' => negb (prev && isWhiteSpace c) && spaced (isWhiteSpace c) s'
  end.

(** Strings of ASCII characters, on which the lowercasing of the run time
    is known. *)
Definition asciiValue (v : value) : Prop :=
  forall s, v = VString s -> isAscii s.

Definition asciiCommand (c : Command) : Prop :=
  isAscii (command_name c) /\ asciiValue (column (parameter_name c)).

(** The strings and rows the examples are about. *)
Definition workflow : value := VString (lit "wf-1").

Definition double_comma : value := VString (lit ",,").

Definition three_periods : value := VString (lit "...").

Definition open_door : Command :=
  mkCommand (lit "open door") true (Some (lit "window")) workflow.

Definition hello_world : Command :=
  mkCommand (lit "Hello, World") false None workflow.

Definition search_example (wf : value) : Command :=
  mkCommand (lit "Search Example On Youtube") true (Some (lit "Example")) wf.

Definition play_jazz_play : Command :=
  mkCommand (lit "play jazz play") true (Some (lit "jazz")) workflow.

Definition play_song (wf : value) : Command :=
  mkCommand (lit "play song") false None wf.

Definition play_song_name (wf : value) : Command :=
  mkCommand (lit "play song name") true (Some (lit "song")) wf.

Definition play_jazz : Command :=
  mkCommand (lit "play jazz") true (Some (lit "jazz")) workflow.

Definition hello (wf : value) : Command :=
  mkCommand (lit "hello world") false None wf.

Definition period : Command := mkCommand (lit ".") false None workflow.

Definition bang : Command := mkCommand (lit "!") false None workflow.

(** ** The other functions of the server and of the prototype *)

(** What the [fileFilter] of the multer upload passes to its callback:
    [cb(null, true)] or [cb(new Error(message))]. *)
Inductive FilterResult : Type :=
| Accepted
| Refused (message : jsstring).

(** The two fields of the uploaded file the filter reads. *)
Record UploadedFile : Type := mkFile {
  mimetype : jsstring;
  originalname : jsstring
}.

(** [fileFilter: (req, file, cb) => ...] *)
Definition fileFilter (file : UploadedFile) : FilterResult :=
  if startsWith (mimetype file) (lit "audio/")
     || streq (mimetype file) (lit "application/octet-stream")
     || endsWith (originalname file) (lit ".wav")
     || endsWith (originalname file) (lit ".webm")
  then Accepted
  else Refused (lit "Only audio files are allowed").

(** The step of the [/voice-command] handler between the transcription and
    the response (lines 271-288): a blank transcription is answered with
    [No speech detected in audio]; otherwise the trimmed text goes to the
    matcher.  [transcribedText.trim()] on a truthy value that is not a
    string is a TypeError, which the handler catches. *)
Inductive VoiceStep : Type :=
| NoSpeech
| NotAString
| Matching (result : Outcome MatchResult).

Definition matchTranscription (toLowerCase : jsstring -> jsstring)
    (transcribedText : value) (queried : QueryResult) : VoiceStep :=
  if negb (toBoolean transcribedText) then NoSpeech
  else match transcribedText with
       | VString s =>
           if streq (trim s) [] then NoSpeech
           else Matching (findMatchingCommand toLowerCase (VString (trim s)) queried)
       | _ => NotAString
       end.

(** [testMatch(template, userInput)] of the prototype [example.js]; the
    function only logs, and the outcome is what its last log line says. *)
Inductive TestOutcome : Type :=
| NoParameterInTemplate
| Match (param : jsstring)
| NoMatch.

Definition placeholder : jsstring := lit "{{parameter}}".

Definition testMatch (toLowerCase : jsstring -> jsstring)
    (template userInput : jsstring) : TestOutcome :=
  let paramStart := indexOf template placeholder in
  if (paramStart =? -1)%Z then NoParameterInTemplate
  else
    let prefix := substring template 0 paramStart in
    let suffix := substringFrom template (paramStart + 13) in
    let matchesPrefix := startsWith (toLowerCase userInput) (toLowerCase prefix) in
    let matchesSuffix := endsWith (toLowerCase userInput) (toLowerCase suffix) in
    if matchesPrefix && matchesSuffix
    then Match (substring userInput (length prefix) (length userInput - length suffix))
    else NoMatch.

(** ** Further notions used in the statements *)

(** The punctuation indexes of a text, in increasing order. *)
Definition punctuationPositions (text : jsstring) : list nat :=
  filter (punctuationAt text) (seq 0 (List.length text)).

(** A text without punctuation characters. *)
Definition punctuationFree (s : jsstring) : Prop :=
  Forall (fun c => isPunctuation c = false) s.

(** A text made of white space. *)
Definition blank (s : jsstring) : Prop :=
  Forall (fun c => isWhiteSpace c = true) s.

(** White space in normal form: every white space unit is a space, and none
    follows another ([prev] tells whether the unit before was one). *)
Fixpoint normalized (prev : bool) (s : jsstring) : bool :=
  match s with
  | [] => true
  | c :: s' =>
      if isWhiteSpace c
      then negb prev && N.eqb c SPACE && normalized true s'
      else normalized false s'
  end.

(** The array the second loop of the cleaner leaves: the splices are done
    at the punctuation indexes in increasing order. *)
Definition afterRemoval (text : jsstring) : jsstring :=
  fold_right (@splice1 N) text (rev (punctuationPositions text)).

(** Rows and files of the further examples. *)
Definition open_dash : Command :=
  mkCommand (lit "open door") true (Some (lit "-")) workflow.

Definition lights_on : Command :=
  mkCommand (lit "lights on") false None workflow.

Definition no_name : Command :=
  mkCommand (lit "remind me") true None workflow.

Definition webm_upload : UploadedFile :=
  mkFile (lit "text/plain") (lit "voice.webm").

(** ** Facts about the built-ins *)

Lemma streq_eq (a b : jsstring) : streq a b = true <-> a = b.
Proof.
  revert b; induction a as [|x a IH]; intros [|y b]; simpl; split;
    try congruence; try reflexivity.
  - intros H. apply andb_true_iff in H as [Hx Hab].
    apply N.eqb_eq in Hx. apply IH in Hab. congruence.
  - intros H. injection H as -> ->.
    rewrite N.eqb_refl. simpl. apply IH. reflexivity.
Qed.

Lemma isPrefix_app (t s : jsstring) :
  isPrefix t s = true <-> exists r, s = t ++ r.
Proof.
  revert s; induction t as [|x t IH]; intros s; simpl.
  - split; [intros _; exists s; reflexivity | reflexivity].
  - destruct s as [|y s].
    + split; [discriminate | intros [r Hr]; discriminate].
    + rewrite andb_true_iff, N.eqb_eq, IH. split.
      * intros [-> [r ->]]. exists r. reflexivity.
      * intros [r Hr]. injection Hr as -> ->. split; [reflexivity | eauto].
Qed.

Lemma startsWith_app (s t : jsstring) :
  startsWith s t = true <-> exists r, s = t ++ r.
Proof. apply isPrefix_app. Qed.

Lemma endsWith_app (s t : jsstring) :
  endsWith s t = true <-> exists r, s = r ++ t.
Proof.
  unfold endsWith. rewrite andb_true_iff, Nat.leb_le, streq_eq. split.
  - intros [_ H]. set (n := (List.length s - List.length t)%nat) in H.
    exists (firstn n s). rewrite <- (firstn_skipn n s) at 1.
    f_equal. exact H.
  - intros [r ->]. rewrite length_app. split; [lia|].
    replace (List.length r + List.length t - List.length t)%nat
      with (List.length r + 0)%nat by lia.
    rewrite skipn_app, Nat.add_0_r, skipn_all.
    replace (List.length r - List.length r)%nat with 0%nat by lia.
    reflexivity.
Qed.

Lemma indexOfFrom_range (s t : jsstring) (i : Z) :
  indexOfFrom s t i = (-1)%Z \/ (i <= indexOfFrom s t i)%Z.
Proof.
  revert i; induction s as [|x s IH]; intros i; simpl.
  - destruct (isPrefix t []); [right; lia | left; reflexivity].
  - destruct (isPrefix t (x :: s)); [right; lia|].
    destruct (IH (i + 1)%Z) as [H|H]; [left; exact H | right; lia].
Qed.

Lemma indexOfFrom_absent (s t : jsstring) (i : Z) :
  ~ Substring t s -> indexOfFrom s t i = (-1)%Z.
Proof.
  revert i; induction s as [|x s IH]; intros i Hno; simpl.
  - destruct (isPrefix t []) eqn:Hp; [|reflexivity].
    exfalso. apply Hno. apply isPrefix_app in Hp as [r Hr].
    exists [], r. exact Hr.
  - destruct (isPrefix t (x :: s)) eqn:Hp.
    + exfalso. apply Hno. apply isPrefix_app in Hp as [r Hr].
      exists [], r. exact Hr.
    + apply IH. intros (pre & post & Hs). apply Hno.
      exists (x :: pre), post. simpl. congruence.
Qed.

Lemma indexOfFrom_found (s t : jsstring) (i : Z) :
  (0 <= i)%Z -> indexOfFrom s t i = (-1)%Z -> ~ Substring t s.
Proof.
  revert i; induction s as [|x s IH]; intros i Hi; simpl.
  - destruct (isPrefix t []) eqn:Hp; [lia|].
    intros _ (pre & post & Hs).
    assert (isPrefix t [] = true) as Hp'; [|congruence].
    apply isPrefix_app. destruct pre; [|discriminate].
    exists post. exact Hs.
  - destruct (isPrefix t (x :: s)) eqn:Hp; [lia|].
    intros H (pre & post & Hs). destruct pre as [|y pre].
    + assert (isPrefix t (x :: s) = true) as Hp'; [|congruence].
      apply isPrefix_app. exists post. exact Hs.
    + apply (IH (i + 1)%Z); [lia | exact H |].
      exists pre, post. simpl in Hs. congruence.
Qed.

(** [indexOf] answers -1 exactly when there is no occurrence. *)
Lemma indexOf_absent (s t : jsstring) :
  indexOf s t = (-1)%Z <-> ~ Substring t s.
Proof.
  split; [apply indexOfFrom_found; lia | apply indexOfFrom_absent].
Qed.

(** Within bounds, [substring] is the plain slice. *)
Lemma substring_slice (s : jsstring) (a b : nat) :
  (a <= b <= List.length s)%nat ->
  substring s (Z.of_nat a) (Z.of_nat b) = firstn (b - a) (skipn a s).
Proof.
  intros H. unfold substring, clamp, length.
  replace (Z.min (Z.max (Z.of_nat a) 0) (Z.of_nat (List.length s)))
    with (Z.of_nat a) by lia.
  replace (Z.min (Z.max (Z.of_nat b) 0) (Z.of_nat (List.length s)))
    with (Z.of_nat b) by lia.
  replace (Z.min (Z.of_nat a) (Z.of_nat b)) with (Z.of_nat a) by lia.
  replace (Z.max (Z.of_nat a) (Z.of_nat b)) with (Z.of_nat b) by lia.
  rewrite Nat2Z.id. f_equal. lia.
Qed.

(** When the two lengths fit into the string, [substring] is what lies
    between a prefix and a suffix of these lengths. *)
Lemma substring_between (s : jsstring) (a b : nat) :
  (a + b <= List.length s)%nat ->
  exists before value after,
    s = before ++ value ++ after /\
    List.length before = a /\ List.length after = b /\
    substring s (Z.of_nat a) (length s - Z.of_nat b) = value.
Proof.
  intros H. set (e := (List.length s - b)%nat).
  exists (firstn a s), (firstn (e - a) (skipn a s)), (skipn e s).
  repeat split.
  - rewrite <- (firstn_skipn a s) at 1. f_equal.
    rewrite <- (firstn_skipn (e - a) (skipn a s)) at 1. f_equal.
    rewrite skipn_skipn. f_equal. unfold e. lia.
  - rewrite length_firstn. lia.
  - rewrite length_skipn. unfold e. lia.
  - unfold length. replace (Z.of_nat (List.length s) - Z.of_nat b)%Z
      with (Z.of_nat e) by (unfold e; lia).
    apply substring_slice. unfold e. lia.
Qed.

(** When the start is the greater bound, [substring] swaps the two. *)
Lemma substring_swapped (s : jsstring) (a b : Z) :
  (0 <= a)%Z -> (b <= length s)%Z -> (b < a)%Z ->
  substring s a b
  = firstn (Z.to_nat (Z.min a (length s) - Z.max 0 b))
      (skipn (Z.to_nat (Z.max 0 b)) s).
Proof.
  intros Ha Hb Hab. unfold substring, clamp.
  assert (0 <= length s)%Z by (unfold length; lia).
  replace (Z.min (Z.min (Z.max a 0) (length s)) (Z.min (Z.max b 0) (length s)))
    with (Z.max 0 b) by lia.
  replace (Z.max (Z.min (Z.max a 0) (length s)) (Z.min (Z.max b 0) (length s)))
    with (Z.min a (length s)) by lia.
  reflexivity.
Qed.

Lemma length_nonneg (s : jsstring) : (0 <= length s)%Z.
Proof. unfold length. lia. Qed.

Lemma isAscii_check (s : jsstring) :
  forallb (fun c => (c <? 128)%N) s = true -> isAscii s.
Proof.
  intros H. apply Forall_forall. intros c Hc.
  rewrite forallb_forall in H. apply N.ltb_lt, H, Hc.
Qed.

Lemma lowercasesAscii_ascii : lowercasesAscii toLowerCase_ascii.
Proof. intros s _. reflexivity. Qed.

(** Side conditions on concrete ASCII texts. *)
Ltac ascii_text :=
  repeat match goal with
    | |- asciiValue _ =>
        let s := fresh "s" in
        let H := fresh "H" in
        intros s H; first [discriminate H | injection H as <-]
    | |- forall rows, Rows _ = Rows rows -> _ =>
        let r := fresh "rows" in
        let H := fresh "H" in
        intros r H; injection H as <-
    | |- Forall asciiCommand _ => constructor
    | |- asciiCommand _ => split; simpl
    | |- isAscii _ => apply isAscii_check; reflexivity
    end.

(** The cleaner and the built-ins it calls only delete code units or put a
    space in their place. *)
Section Preservation.

Variable P : N -> Prop.
Hypothesis P_space : P SPACE.

Lemma Forall_firstn (n : nat) (s : jsstring) :
  Forall P s -> Forall P (firstn n s).
Proof.
  intros H; revert n; induction H; intros [|n]; simpl; constructor; auto.
Qed.

Lemma Forall_skipn (n : nat) (s : jsstring) :
  Forall P s -> Forall P (skipn n s).
Proof.
  intros H; revert n; induction H; intros [|n]; simpl; auto.
Qed.

Lemma Forall_splice1 (i : nat) (s : jsstring) :
  Forall P s -> Forall P (splice1 i s).
Proof.
  intros H. unfold splice1. apply Forall_app. split.
  - apply Forall_firstn, H.
  - apply Forall_skipn, H.
Qed.

Lemma Forall_removePunctuation (idx : list nat) (n : nat) (s : jsstring) :
  Forall P s -> Forall P (removePunctuation idx n s).
Proof.
  revert s; induction n as [|n IH]; intros s H; simpl; [exact H|].
  apply IH, Forall_splice1, H.
Qed.

Lemma Forall_replaceRuns (b : bool) (s : jsstring) :
  Forall P s -> Forall P (replaceRuns b s).
Proof.
  intros H; revert b; induction H as [|c s Hc Hs IH]; intros b; simpl.
  - constructor.
  - destruct (isWhiteSpace c); [destruct b|]; auto.
Qed.

Lemma Forall_trimStart (s : jsstring) : Forall P s -> Forall P (trimStart s).
Proof.
  induction 1 as [|c s Hc Hs IH]; simpl; [constructor|].
  destruct (isWhiteSpace c); auto.
Qed.

Lemma Forall_trim (s : jsstring) : Forall P s -> Forall P (trim s).
Proof.
  intros H. unfold trim, trimEnd.
  apply Forall_rev, Forall_trimStart, Forall_rev, Forall_trimStart, H.
Qed.

Lemma Forall_substring (s : jsstring) (a b : Z) :
  Forall P s -> Forall P (substring s a b).
Proof.
  intros H. unfold substring. apply Forall_firstn, Forall_skipn, H.
Qed.

Lemma Forall_cleanString (s : jsstring) : Forall P s -> Forall P (cleanString s).
Proof.
  intros H. unfold cleanString, replaceWhiteSpace.
  apply Forall_trim, Forall_replaceRuns, Forall_removePunctuation, H.
Qed.

Lemma Forall_cleanTranscribedText (v : value) :
  (forall s, v = VString s -> Forall P s) -> Forall P (cleanTranscribedText v).
Proof.
  intros H. unfold cleanTranscribedText.
  destruct (negb (toBoolean v) || negb (jstype_eqb (typeof v) TString));
    [constructor|].
  destruct v; try constructor. apply Forall_cleanString, H. reflexivity.
Qed.

End Preservation.

(** ** Facts about the two loops *)

Section Loops.

Variable body : Command -> option MatchResult.

Lemma forRows_none (rows : list Command) :
  forRows body rows = None <-> Forall (fun c => body c = None) rows.
Proof.
  induction rows as [|c rows IH]; simpl.
  - split; [constructor | reflexivity].
  - destruct (body c) eqn:Hc.
    + split; [discriminate | intros H; inversion H; congruence].
    + rewrite IH. split; [intros H; constructor; assumption|].
      intros H; inversion H; assumption.
Qed.

(** The loop returns at the first row whose body returns. *)
Lemma forRows_some (rows : list Command) (r : MatchResult) :
  forRows body rows = Some r <->
  exists pre c post,
    rows = pre ++ c :: post /\ Forall (fun c => body c = None) pre /\
    body c = Some r.
Proof.
  induction rows as [|c rows IH]; simpl.
  - split; [discriminate|]. intros (pre & c & post & H & _).
    destruct pre; discriminate.
  - destruct (body c) eqn:Hc.
    + split.
      * intros H. exists [], c, rows. repeat split; [constructor | congruence].
      * intros (pre & c' & post & H & Hpre & Hc').
        destruct pre as [|d pre]; simpl in H; injection H as <- _.
        -- congruence.
        -- inversion Hpre; congruence.
    + rewrite IH. split.
      * intros (pre & c' & post & -> & Hpre & Hc').
        exists (c :: pre), c', post. repeat split; auto.
      * intros (pre & c' & post & H & Hpre & Hc').
        destruct pre as [|d pre]; simpl in H; injection H as <- ->.
        -- congruence.
        -- exists pre, c', post. inversion Hpre. repeat split; auto.
Qed.

(** A row whose body falls through does not change what the loop returns. *)
Lemma forRows_skip (pre post : list Command) (c : Command) :
  body c = None -> forRows body (pre ++ c :: post) = forRows body (pre ++ post).
Proof.
  intros Hc. induction pre as [|d pre IH]; simpl.
  - rewrite Hc. reflexivity.
  - destruct (body d); [reflexivity | exact IH].
Qed.

Lemma forRows_ext (body' : Command -> option MatchResult) (rows : list Command) :
  Forall (fun c => body c = body' c) rows ->
  forRows body rows = forRows body' rows.
Proof.
  induction 1 as [|c rows Hc _ IH]; simpl; [reflexivity|].
  rewrite Hc, IH. reflexivity.
Qed.

End Loops.

Section Engine.

Variable toLowerCase : jsstring -> jsstring.

(** The exact-match body returns exactly on a row without parameter whose
    cleaned, lowercased name is the cleaned, lowercased input. *)
Lemma exactMatch_some (ci : jsstring) (c : Command) (r : MatchResult) :
  exactMatch toLowerCase ci c = Some r <->
  has_parameter c = false /\
  toLowerCase ci = toLowerCase (cleanTranscribedText (VString (command_name c))) /\
  r = Success (command_name c) None (workflow_id c) (lit "Ready to execute workflow").
Proof.
  unfold exactMatch. destruct (has_parameter c); simpl.
  - split; [discriminate | intros [H _]; discriminate].
  - destruct (streq _ _) eqn:Heq.
    + apply streq_eq in Heq. split.
      * intros H. injection H as <-. auto.
      * intros (_ & _ & ->). reflexivity.
    + split; [discriminate|]. intros (_ & H & _).
      apply streq_eq in H. congruence.
Qed.

Lemma exactMatch_parameterized (ci : jsstring) (c : Command) :
  has_parameter c = true -> exactMatch toLowerCase ci c = None.
Proof. intros H. unfold exactMatch. rewrite H. reflexivity. Qed.

(** The parameterized body returns exactly when the row has a parameter,
    the parameter occurs in the name and the two tests on the input hold;
    there is no other condition. *)
Lemma parameterMatch_some (ci : jsstring) (c : Command) (r : MatchResult) :
  parameterMatch toLowerCase ci c = Some r <->
  has_parameter c = true /\
  toBoolean (column (parameter_name c)) = true /\
  paramIndexOf toLowerCase c <> (-1)%Z /\
  startsWith (toLowerCase ci) (toLowerCase (prefixOf toLowerCase c)) = true /\
  endsWith (toLowerCase ci) (toLowerCase (suffixOf toLowerCase c)) = true /\
  r = Success (command_name c)
        (Some (trim (substring ci (length (prefixOf toLowerCase c))
                       (length ci - length (suffixOf toLowerCase c)))))
        (workflow_id c) (lit "Ready to execute workflow with parameter").
Proof.
  unfold parameterMatch.
  destruct (has_parameter c); simpl;
    [|split; [discriminate | intros [H _]; discriminate]].
  destruct (toBoolean (column (parameter_name c))); simpl;
    [|split; [discriminate | intros (_ & H & _); discriminate]].
  destruct (Z.eqb_spec (paramIndexOf toLowerCase c) (-1)) as [Hi|Hi].
  - split; [discriminate | intros (_ & _ & H & _); contradiction].
  - destruct (startsWith _ _); simpl;
      [|split; [discriminate | intros (_ & _ & _ & H & _); discriminate]].
    destruct (endsWith _ _); simpl;
      [|split; [discriminate | intros (_ & _ & _ & _ & H & _); discriminate]].
    split.
    + intros H. injection H as <-. repeat split; auto.
    + intros (_ & _ & _ & _ & _ & ->). reflexivity.
Qed.

Lemma parameterMatch_unparameterized (ci : jsstring) (c : Command) :
  has_parameter c = false -> parameterMatch toLowerCase ci c = None.
Proof. intros H. unfold parameterMatch. rewrite H. reflexivity. Qed.

(** On a cleaned input that is not empty and a successful query, the
    function returns what the two loops decide. *)
Lemma findMatchingCommand_rows (userInput : value) (rows : list Command) :
  cleanTranscribedText userInput <> [] ->
  rows <> [] ->
  findMatchingCommand toLowerCase userInput (Rows rows)
  = Return (matchRows toLowerCase (cleanTranscribedText userInput) rows).
Proof.
  intros Hi Hr. unfold findMatchingCommand.
  destruct (cleanTranscribedText userInput); [contradiction|].
  destruct rows; [contradiction|]. reflexivity.
Qed.

(** The function returns a success only from one of the two loops, run on
    the rows of a successful query. *)
Lemma findMatchingCommand_success (userInput : value)
    (queried : QueryResult) (r : MatchResult) :
  findMatchingCommand toLowerCase userInput queried = Return r ->
  success r = true ->
  exists rows,
    queried = Rows rows /\
    cleanTranscribedText userInput <> [] /\
    (forRows (exactMatch toLowerCase (cleanTranscribedText userInput)) rows = Some r
     \/ forRows (exactMatch toLowerCase (cleanTranscribedText userInput)) rows = None
        /\ forRows (parameterMatch toLowerCase (cleanTranscribedText userInput)) rows
           = Some r).
Proof.
  unfold findMatchingCommand.
  destruct (cleanTranscribedText userInput) as [|u ci] eqn:Hci; simpl.
  - intros H; injection H as <-. discriminate.
  - destruct queried as [rows|err]; [|discriminate].
    destruct rows as [|c rows]; [intros H; injection H as <-; discriminate|].
    cbv [Nat.eqb List.length]. unfold matchRows. intros H Hs.
    exists (c :: rows). split; [reflexivity|]. split; [discriminate|].
    destruct (forRows (exactMatch toLowerCase (u :: ci)) (c :: rows)) as [r1|].
    + left. congruence.
    + right. split; [reflexivity|].
      destruct (forRows (parameterMatch toLowerCase (u :: ci)) (c :: rows)) as [r2|].
      * congruence.
      * injection H as <-. discriminate.
Qed.

(** *** Lowercasing of ASCII text *)

Hypothesis lower_ascii : lowercasesAscii toLowerCase.

Lemma isAscii_clean (v : value) : asciiValue v -> isAscii (cleanTranscribedText v).
Proof.
  intros H. apply Forall_cleanTranscribedText; [reflexivity | exact H].
Qed.

Lemma asciiValue_string (s : jsstring) : isAscii s -> asciiValue (VString s).
Proof. intros H t Ht. injection Ht as <-. exact H. Qed.

Lemma exactMatch_ascii (ci : jsstring) (c : Command) :
  isAscii ci -> asciiCommand c ->
  exactMatch toLowerCase ci c = exactMatch toLowerCase_ascii ci c.
Proof.
  intros Hci [Hn _]. unfold exactMatch.
  rewrite (lower_ascii Hci).
  rewrite (lower_ascii (isAscii_clean (asciiValue_string Hn))).
  reflexivity.
Qed.

Lemma paramIndexOf_ascii (c : Command) :
  asciiCommand c -> paramIndexOf toLowerCase c = paramIndexOf toLowerCase_ascii c.
Proof.
  intros [Hn Hp]. unfold paramIndexOf.
  rewrite (lower_ascii (isAscii_clean (asciiValue_string Hn))).
  rewrite (lower_ascii (isAscii_clean Hp)).
  reflexivity.
Qed.

Lemma prefixOf_ascii (c : Command) :
  asciiCommand c -> prefixOf toLowerCase c = prefixOf toLowerCase_ascii c.
Proof. intros H. unfold prefixOf. rewrite (paramIndexOf_ascii H). reflexivity. Qed.

Lemma suffixOf_ascii (c : Command) :
  asciiCommand c -> suffixOf toLowerCase c = suffixOf toLowerCase_ascii c.
Proof. intros H. unfold suffixOf. rewrite (paramIndexOf_ascii H). reflexivity. Qed.

Lemma parameterMatch_ascii (ci : jsstring) (c : Command) :
  isAscii ci -> asciiCommand c ->
  parameterMatch toLowerCase ci c = parameterMatch toLowerCase_ascii ci c.
Proof.
  intros Hci Hc. unfold parameterMatch.
  rewrite (paramIndexOf_ascii Hc), (prefixOf_ascii Hc), (suffixOf_ascii Hc).
  rewrite (lower_ascii Hci).
  assert (isAscii (cleanTranscribedText (VString (command_name c)))) as Hn
    by (apply isAscii_clean, asciiValue_string; exact (proj1 Hc)).
  rewrite (@lower_ascii (prefixOf toLowerCase_ascii c))
    by (apply Forall_substring, Hn).
  rewrite (@lower_ascii (suffixOf toLowerCase_ascii c))
    by (apply Forall_substring, Hn).
  reflexivity.
Qed.

(** On ASCII input and ASCII rows the engine behaves as with the ASCII
    lowercasing. *)
Lemma findMatchingCommand_ascii (userInput : value)
    (queried : QueryResult) :
  asciiValue userInput ->
  (forall rows, queried = Rows rows -> Forall asciiCommand rows) ->
  findMatchingCommand toLowerCase userInput queried
  = findMatchingCommand toLowerCase_ascii userInput queried.
Proof.
  intros Hi Hq. unfold findMatchingCommand.
  destruct (negb _); [reflexivity|].
  destruct queried as [rows|err]; [|reflexivity].
  destruct (List.length rows =? 0)%nat; [reflexivity|].
  f_equal. unfold matchRows.
  pose proof (isAscii_clean Hi) as Hci.
  specialize (Hq rows eq_refl).
  rewrite (@forRows_ext (exactMatch toLowerCase (cleanTranscribedText userInput))
             (exactMatch toLowerCase_ascii (cleanTranscribedText userInput)) rows).
  2:{ eapply Forall_impl; [|exact Hq]. intros c Hc. apply exactMatch_ascii; assumption. }
  rewrite (@forRows_ext (parameterMatch toLowerCase (cleanTranscribedText userInput))
             (parameterMatch toLowerCase_ascii (cleanTranscribedText userInput)) rows).
  2:{ eapply Forall_impl; [|exact Hq]. intros c Hc. apply parameterMatch_ascii; assumption. }
  reflexivity.
Qed.

End Engine.

(** ** Facts about the text cleaner *)

(** The first loop collects the punctuation indexes from the last to the
    first. *)
Lemma findPunctuation_indexes (textArray : list N) (n : nat) (acc : list nat) :
  findPunctuation textArray n acc
  = acc ++ rev (filter (punctuationAt textArray) (seq 0 n)).
Proof.
  revert acc; induction n as [|n IH]; intros acc.
  - cbn [findPunctuation seq filter rev]. rewrite app_nil_r. reflexivity.
  - cbn [findPunctuation]. rewrite IH, seq_S, filter_app, rev_app_distr.
    cbn [filter Nat.add].
    assert (punctuationAt textArray n
            = match nth_error textArray n with
              | Some c => includes punctuationChars c
              | None => false
              end) as Hp by reflexivity.
    destruct (nth_error textArray n) as [c|]; rewrite Hp.
    + destruct (includes punctuationChars c); cbn [rev app];
        rewrite <- ?app_assoc; reflexivity.
    + reflexivity.
Qed.

(** The second loop walks the collected indexes from the last to the first:
    it removes at the last collected index, the lowest one, first. *)
Lemma removePunctuation_firstn (punctuationIndexes : list nat) (n : nat)
    (textArray : list N) :
  (n <= List.length punctuationIndexes)%nat ->
  removePunctuation punctuationIndexes n textArray
  = fold_right (@splice1 N) textArray (firstn n punctuationIndexes).
Proof.
  revert textArray; induction n as [|n IH]; intros textArray Hn; simpl.
  - reflexivity.
  - rewrite IH by lia.
    assert (firstn (S n) punctuationIndexes
            = firstn n punctuationIndexes ++ [nth n punctuationIndexes O]) as Hf.
    { clear IH. revert n Hn.
      induction punctuationIndexes as [|i l IHl]; intros n Hn; simpl in Hn; [lia|].
      destruct n as [|n]; [reflexivity|].
      change (firstn (S (S n)) (i :: l)) with (i :: firstn (S n) l).
      rewrite IHl by lia. reflexivity. }
    etransitivity; [|symmetry; apply (f_equal (fold_right (@splice1 N) textArray) Hf)].
    rewrite fold_right_app. reflexivity.
Qed.

Lemma removePunctuation_order (punctuationIndexes : list nat) (textArray : list N) :
  removePunctuation punctuationIndexes (List.length punctuationIndexes) textArray
  = fold_right (@splice1 N) textArray punctuationIndexes.
Proof.
  rewrite removePunctuation_firstn by lia. rewrite firstn_all. reflexivity.
Qed.

(** Together: the cleaner splices at the punctuation indexes of the
    original text in increasing order, each splice on the array the
    splices before it have already shortened. *)
Lemma cleanString_removal_order (text : jsstring) :
  cleanString text
  = trim (replaceWhiteSpace
            (fold_right (@splice1 N) text
               (rev (filter (punctuationAt text) (seq 0 (List.length text)))))).
Proof.
  unfold cleanString.
  rewrite removePunctuation_order, findPunctuation_indexes. reflexivity.
Qed.

Lemma spaced_replaceRuns (inRun : bool) (s : jsstring) :
  spaced inRun (replaceRuns inRun s) = true.
Proof.
  revert inRun; induction s as [|c s IH]; intros inRun; simpl; [reflexivity|].
  destruct (isWhiteSpace c) eqn:Hc.
  - destruct inRun; [apply IH|]. simpl. apply IH.
  - simpl. rewrite Hc, andb_false_r. simpl. apply IH.
Qed.

Lemma spaced_weaken (prev : bool) (s : jsstring) :
  spaced prev s = true -> spaced false s = true.
Proof.
  destruct s as [|c s]; simpl; [reflexivity|].
  intros H. apply andb_true_iff in H as [_ H]. exact H.
Qed.

Lemma spaced_no_pair (prev : bool) (s pre post : jsstring) (a b : N) :
  spaced prev s = true -> s = pre ++ a :: b :: post ->
  isWhiteSpace a && isWhiteSpace b = false.
Proof.
  revert prev s; induction pre as [|x pre IH]; intros prev s H ->; simpl in H.
  - apply andb_true_iff in H as [_ H]. apply andb_true_iff in H as [H _].
    apply negb_true_iff in H. exact H.
  - apply andb_true_iff in H as [_ H]. eapply IH; [exact H | reflexivity].
Qed.

Lemma trimStart_suffix (s : jsstring) : exists pre, s = pre ++ trimStart s.
Proof.
  induction s as [|c s [pre IH]]; simpl.
  - exists []. reflexivity.
  - destruct (isWhiteSpace c).
    + exists (c :: pre). simpl. f_equal. exact IH.
    + exists []. reflexivity.
Qed.

Lemma trim_middle (s : jsstring) : exists pre post, s = pre ++ trim s ++ post.
Proof.
  destruct (trimStart_suffix s) as [pre Hpre].
  destruct (trimStart_suffix (rev (trimStart s))) as [post Hpost].
  exists pre, (rev post). unfold trim, trimEnd.
  rewrite Hpre at 1. f_equal.
  rewrite <- (rev_involutive (trimStart s)) at 1.
  rewrite Hpost at 1. apply rev_app_distr.
Qed.

(** The half of C1 that holds: the cleaned text never has two white space
    units in a row, so no two spaces in a row. *)
Lemma cleanTranscribedText_no_double_space (text : value) :
  ~ Substring [SPACE; SPACE] (cleanTranscribedText text).
Proof.
  intros (pre & post & H).
  unfold cleanTranscribedText in H.
  destruct (negb (toBoolean text) || negb (jstype_eqb (typeof text) TString));
    [destruct pre; discriminate|].
  destruct text; try (destruct pre; discriminate).
  unfold cleanString, replaceWhiteSpace in H.
  set (t := removePunctuation _ _ _) in H.
  destruct (trim_middle (replaceRuns false t)) as (pre' & post' & Ht).
  rewrite H in Ht.
  assert (isWhiteSpace SPACE && isWhiteSpace SPACE = false) as Hf; [|discriminate Hf].
  apply (@spaced_no_pair false (replaceRuns false t) (pre' ++ pre) (post ++ post')).
  - apply spaced_replaceRuns.
  - rewrite Ht. simpl. rewrite <- !app_assoc. reflexivity.
Qed.

(** ** The text cleaner: claims C1, C2 and C9 *)

Example clean_hello :
  cleanTranscribedText (VString (lit "  Hello,   World ")) = lit "Hello World".
Proof. vm_compute. reflexivity. Qed.

(** The two loops of the cleaner on [a,b,c]: the indexes are collected from
    the last to the first, and then removed from the first to the last, so
    that the second removal hits the unit after the second comma. *)
Example clean_a_b_c :
  findPunctuation (lit "a,b,c") 5 [] = [3; 1]%nat /\
  removePunctuation [3; 1]%nat 2 (lit "a,b,c") = lit "ab," /\
  cleanTranscribedText (VString (lit "a,b,c")) = lit "ab,".
Proof. vm_compute. auto. Qed.

(** C1, at the input [,,]: the cleaned text is [,], so it still holds a
    character of the punctuation set.  The claim asks for a cleaned text
    without any. *)
Theorem cleanTranscribedText_leaves_punctuation :
  cleanTranscribedText double_comma = lit "," /\
  exists c, In c (cleanTranscribedText double_comma) /\ isPunctuation c = true.
Proof.
  split; [vm_compute; reflexivity|].
  exists 44%N. vm_compute. auto.
Qed.

(** C2, at the input [,,]: cleaning gives [,], and cleaning [,] gives the
    empty string, so cleaning twice is not cleaning once.  The claim asks
    for idempotence. *)
Theorem cleanTranscribedText_twice_differs :
  cleanTranscribedText double_comma = lit "," /\
  cleanTranscribedText (VString (cleanTranscribedText double_comma)) = [] /\
  cleanTranscribedText (VString (cleanTranscribedText double_comma))
  <> cleanTranscribedText double_comma.
Proof.
  repeat split; try (vm_compute; reflexivity).
  vm_compute. discriminate.
Qed.

(** C9: on [null], [undefined] and every value that is not a string the
    cleaner returns the empty string; being a total function it raises
    nothing. *)
Theorem cleanTranscribedText_non_string (text : value) :
  typeof text <> TString -> cleanTranscribedText text = [].
Proof.
  intros H. unfold cleanTranscribedText.
  destruct text; simpl in *; try reflexivity;
    try (rewrite orb_true_r; reflexivity).
  exfalso. apply H. reflexivity.
Qed.

Lemma cleanTranscribedText_non_string_witness :
  typeof VNull <> TString /\ cleanTranscribedText VNull = [].
Proof.
  split; [discriminate|].
  apply (@cleanTranscribedText_non_string VNull). discriminate.
Defined.

(** The empty string is cleaned to the empty string as well. *)
Lemma cleanTranscribedText_empty : cleanTranscribedText (VString []) = [].
Proof. reflexivity. Qed.

(** ** The matching engine: claims C3 to C8 and C10 *)

Section Results.

Variable toLowerCase : jsstring -> jsstring.

(** Every result of the two loops is a success, and the only failure after
    them is the one of the last [return]. *)
Lemma forRows_exact_success (ci : jsstring) (rows : list Command) (r : MatchResult) :
  forRows (exactMatch toLowerCase ci) rows = Some r -> success r = true.
Proof.
  intros H. apply forRows_some in H as (pre & c & post & _ & _ & H).
  apply exactMatch_some in H as (_ & _ & ->). reflexivity.
Qed.

Lemma forRows_parameter_success (ci : jsstring) (rows : list Command) (r : MatchResult) :
  forRows (parameterMatch toLowerCase ci) rows = Some r -> success r = true.
Proof.
  intros H. apply forRows_some in H as (pre & c & post & _ & _ & H).
  apply parameterMatch_some in H as (_ & _ & _ & _ & _ & ->). reflexivity.
Qed.

Lemma matchRows_cases (ci : jsstring) (rows : list Command) :
  success (matchRows toLowerCase ci rows) = true \/
  matchRows toLowerCase ci rows = Failure (lit "No matching command found").
Proof.
  unfold matchRows.
  destruct (forRows (exactMatch toLowerCase ci) rows) as [r|] eqn:H1.
  - left. eapply forRows_exact_success, H1.
  - destruct (forRows (parameterMatch toLowerCase ci) rows) as [r|] eqn:H2.
    + left. eapply forRows_parameter_success, H2.
    + right. reflexivity.
Qed.

(** C3, at the input [...]: the cleaned text is [.], which is not empty, so
    the function goes on to the query: whatever the query gives, the result
    is not the failure with message [Empty command after cleaning], and with
    no rows it is the failure [No commands found for this user].  The claim
    asks for the former message. *)
Theorem three_periods_not_empty_after_cleaning :
  cleanTranscribedText three_periods = lit "." /\
  (forall queried,
     findMatchingCommand toLowerCase three_periods queried
     <> Return (Failure (lit "Empty command after cleaning"))) /\
  findMatchingCommand toLowerCase three_periods (Rows [])
  = Return (Failure (lit "No commands found for this user")).
Proof.
  assert (cleanTranscribedText three_periods = lit ".") as Hc
    by (vm_compute; reflexivity).
  split; [exact Hc|]. split.
  - intros queried. destruct queried as [rows|err].
    + destruct rows as [|c rows].
      * vm_compute. discriminate.
      * rewrite findMatchingCommand_rows; [|rewrite Hc|]; try discriminate.
        intros H. injection H as H.
        destruct (matchRows_cases (cleanTranscribedText three_periods) (c :: rows))
          as [Hs|Hf].
        -- rewrite H in Hs. discriminate.
        -- rewrite Hf in H. vm_compute in H. discriminate.
    + unfold findMatchingCommand. rewrite Hc. vm_compute. discriminate.
  - vm_compute. reflexivity.
Qed.

(** C8: a row with a parameter whose cleaned, lowercased parameter name does
    not occur in its cleaned, lowercased command name never matches: both
    loop bodies fall through on it for every input, the function returns
    (it does not throw) what it returns on the other rows, and a failure
    when there is no other row. *)
Theorem unmatched_parameter_never_matches (c : Command) :
  has_parameter c = true ->
  ~ Substring (toLowerCase (cleanTranscribedText (column (parameter_name c))))
      (toLowerCase (cleanTranscribedText (VString (command_name c)))) ->
  (forall ci,
     exactMatch toLowerCase ci c = None /\ parameterMatch toLowerCase ci c = None) /\
  (forall userInput pre post,
     exists r,
       findMatchingCommand toLowerCase userInput (Rows (pre ++ c :: post)) = Return r /\
       (pre ++ post <> [] ->
        findMatchingCommand toLowerCase userInput (Rows (pre ++ post)) = Return r) /\
       (pre ++ post = [] -> success r = false)).
Proof.
  intros Hp Hno.
  assert (forall ci, exactMatch toLowerCase ci c = None
                     /\ parameterMatch toLowerCase ci c = None) as Hbody.
  { intros ci. split; [apply exactMatch_parameterized, Hp|].
    destruct (parameterMatch toLowerCase ci c) as [r|] eqn:Hr; [|reflexivity].
    apply parameterMatch_some in Hr as (_ & _ & Hi & _).
    exfalso. apply Hi. unfold paramIndexOf. apply indexOf_absent, Hno. }
  split; [exact Hbody|].
  intros userInput pre post.
  destruct (cleanTranscribedText userInput) as [|u ci] eqn:Hci.
  - exists (Failure (lit "Empty command after cleaning")).
    unfold findMatchingCommand. rewrite Hci. simpl. auto.
  - exists (matchRows toLowerCase (u :: ci) (pre ++ c :: post)).
    assert (matchRows toLowerCase (u :: ci) (pre ++ c :: post)
            = matchRows toLowerCase (u :: ci) (pre ++ post)) as Hskip.
    { unfold matchRows. destruct (Hbody (u :: ci)) as [He Hq].
      rewrite (@forRows_skip _ pre post c He), (@forRows_skip _ pre post c Hq).
      reflexivity. }
    split; [|split].
    + rewrite findMatchingCommand_rows, Hci; [reflexivity | | ].
      * rewrite Hci. discriminate.
      * destruct pre; discriminate.
    + intros Hne. rewrite findMatchingCommand_rows, Hci, Hskip; [reflexivity | | exact Hne].
      rewrite Hci. discriminate.
    + intros Hnil. rewrite Hskip, Hnil. reflexivity.
Qed.

(** C10: whenever the function returns a success, its [command] is the
    [command_name] of one of the rows, as stored, and its [workflow_id] is
    the one of that row; that row is the matched one: the comparison that
    selected it was made on the cleaned, lowercased texts. *)
Theorem success_reports_stored_command (userInput : value)
    (queried : QueryResult) (command : jsstring) (parameter : option jsstring)
    (wf : value) (msg : jsstring) :
  findMatchingCommand toLowerCase userInput queried
  = Return (Success command parameter wf msg) ->
  exists rows c,
    queried = Rows rows /\ In c rows /\
    command = command_name c /\ wf = workflow_id c /\
    (has_parameter c = false /\ parameter = None /\
     toLowerCase (cleanTranscribedText userInput)
     = toLowerCase (cleanTranscribedText (VString (command_name c)))
     \/
     has_parameter c = true /\ parameter <> None /\
     startsWith (toLowerCase (cleanTranscribedText userInput))
       (toLowerCase (prefixOf toLowerCase c)) = true /\
     endsWith (toLowerCase (cleanTranscribedText userInput))
       (toLowerCase (suffixOf toLowerCase c)) = true).
Proof.
  intros H. apply findMatchingCommand_success in H as (rows & -> & _ & H);
    [|reflexivity].
  exists rows.
  destruct H as [H | [_ H]];
    apply forRows_some in H as (pre & c & post & -> & _ & H); exists c.
  - apply exactMatch_some in H as (Hp & Heq & Hr). injection Hr as -> -> -> ->.
    repeat split; [apply in_elt | auto].
  - apply parameterMatch_some in H as (Hp & _ & _ & Hs & He & Hr).
    injection Hr as -> -> -> ->.
    repeat split; [apply in_elt|]. right. repeat split; auto. discriminate.
Qed.

(** The exact-match body falls through exactly on rows with a parameter and
    on rows whose cleaned, lowercased name differs from the input's. *)
Lemma exactMatch_none (ci : jsstring) (c : Command) :
  exactMatch toLowerCase ci c = None <->
  has_parameter c = true \/
  toLowerCase ci <> toLowerCase (cleanTranscribedText (VString (command_name c))).
Proof.
  unfold exactMatch. destruct (has_parameter c); simpl.
  - split; auto.
  - destruct (streq _ _) eqn:Heq.
    + apply streq_eq in Heq. split; [discriminate|].
      intros [H|H]; [discriminate | contradiction].
    + split; [|reflexivity]. intros _. right. intros H.
      apply streq_eq in H. congruence.
Qed.

(** The first loop returns at the first row without parameter that equals
    the input, whatever the rows with a parameter are. *)
Lemma exact_phase (userInput : value) (pre post : list Command) (c : Command) :
  cleanTranscribedText userInput <> [] ->
  Forall (fun d => exactMatch toLowerCase (cleanTranscribedText userInput) d = None) pre ->
  has_parameter c = false ->
  toLowerCase (cleanTranscribedText userInput)
  = toLowerCase (cleanTranscribedText (VString (command_name c))) ->
  findMatchingCommand toLowerCase userInput (Rows (pre ++ c :: post))
  = Return (Success (command_name c) None (workflow_id c)
              (lit "Ready to execute workflow")).
Proof.
  intros Hci Hpre Hp Heq.
  rewrite findMatchingCommand_rows; [|exact Hci | destruct pre; discriminate].
  unfold matchRows.
  assert (forRows (exactMatch toLowerCase (cleanTranscribedText userInput))
            (pre ++ c :: post)
          = Some (Success (command_name c) None (workflow_id c)
                    (lit "Ready to execute workflow"))) as ->; [|reflexivity].
  apply forRows_some. exists pre, c, post.
  repeat split; [exact Hpre|]. apply exactMatch_some. auto.
Qed.

(** When some row without parameter equals the input, the first loop
    returns at the first such row. *)
Lemma exact_first (userInput : value) (rows : list Command) (c : Command) :
  cleanTranscribedText userInput <> [] ->
  In c rows ->
  has_parameter c = false ->
  toLowerCase (cleanTranscribedText userInput)
  = toLowerCase (cleanTranscribedText (VString (command_name c))) ->
  exists pre c' post,
    rows = pre ++ c' :: post /\
    has_parameter c' = false /\
    toLowerCase (cleanTranscribedText userInput)
    = toLowerCase (cleanTranscribedText (VString (command_name c'))) /\
    Forall (fun d =>
              has_parameter d = true \/
              toLowerCase (cleanTranscribedText userInput)
              <> toLowerCase (cleanTranscribedText (VString (command_name d))))
      pre /\
    findMatchingCommand toLowerCase userInput (Rows rows)
    = Return (Success (command_name c') None (workflow_id c')
                (lit "Ready to execute workflow")).
Proof.
  intros Hci Hin Hp Heq.
  destruct (forRows (exactMatch toLowerCase (cleanTranscribedText userInput)) rows)
    as [r|] eqn:Hr.
  - apply forRows_some in Hr as (pre & c' & post & -> & Hpre & Hc').
    apply exactMatch_some in Hc' as (Hp' & Heq' & _).
    exists pre, c', post. repeat split; auto.
    + eapply Forall_impl; [|exact Hpre]. intros d Hd.
      apply exactMatch_none, Hd.
    + apply exact_phase; assumption.
  - exfalso. rewrite forRows_none, Forall_forall in Hr.
    specialize (Hr c Hin). apply exactMatch_none in Hr as [Hr|Hr];
      [congruence | contradiction].
Qed.

(** C4, as the code has it: the parameterized body tests the prefix and the
    suffix only.  When one of the two tests fails the row is no match and
    the loop goes on with the rows after it; when both hold the function
    returns a success, also when the lengths of prefix and suffix add up to
    more than the length of the cleaned input: the parameter is then the
    trimmed piece of the input between [max 0 (input length - suffix
    length)] and [min (prefix length) (input length)]. *)
Theorem overlapping_slice_still_matches (userInput : value)
    (pre post : list Command) (c : Command) :
  let ci := cleanTranscribedText userInput in
  let prefix := prefixOf toLowerCase c in
  let suffix := suffixOf toLowerCase c in
  ci <> [] ->
  forRows (exactMatch toLowerCase ci) (pre ++ c :: post) = None ->
  forRows (parameterMatch toLowerCase ci) pre = None ->
  has_parameter c = true ->
  toBoolean (column (parameter_name c)) = true ->
  paramIndexOf toLowerCase c <> (-1)%Z ->
  (startsWith (toLowerCase ci) (toLowerCase prefix)
   && endsWith (toLowerCase ci) (toLowerCase suffix) = false ->
   findMatchingCommand toLowerCase userInput (Rows (pre ++ c :: post))
   = Return (match forRows (parameterMatch toLowerCase ci) post with
             | Some r => r
             | None => Failure (lit "No matching command found")
             end)) /\
  (startsWith (toLowerCase ci) (toLowerCase prefix)
   && endsWith (toLowerCase ci) (toLowerCase suffix) = true ->
   (length prefix + length suffix > length ci)%Z ->
   findMatchingCommand toLowerCase userInput (Rows (pre ++ c :: post))
   = Return (Success (command_name c)
               (Some (trim (firstn
                              (Z.to_nat (Z.min (length prefix) (length ci)
                                         - Z.max 0 (length ci - length suffix)))
                              (skipn (Z.to_nat (Z.max 0 (length ci - length suffix)))
                                 ci))))
               (workflow_id c)
               (lit "Ready to execute workflow with parameter"))).
Proof.
  intros ci prefix suffix Hci Hexact Hpre Hp Hb Hi.
  assert (findMatchingCommand toLowerCase userInput (Rows (pre ++ c :: post))
          = Return (match parameterMatch toLowerCase ci c with
                    | Some r => r
                    | None =>
                        match forRows (parameterMatch toLowerCase ci) post with
                        | Some r => r
                        | None => Failure (lit "No matching command found")
                        end
                    end)) as Hrun.
  { rewrite findMatchingCommand_rows; [|exact Hci | destruct pre; discriminate].
    unfold matchRows. fold ci. rewrite Hexact. f_equal.
    clear Hexact. induction pre as [|d pre IH]; simpl in *.
    - destruct (parameterMatch toLowerCase ci c); reflexivity.
    - destruct (parameterMatch toLowerCase ci d); [discriminate|].
      apply IH, Hpre. }
  split.
  - intros Htest. rewrite Hrun.
    destruct (parameterMatch toLowerCase ci c) as [r|] eqn:Hr; [|reflexivity].
    apply parameterMatch_some in Hr as (_ & _ & _ & Hs & He & _).
    fold prefix suffix in Hs, He. rewrite Hs, He in Htest. discriminate.
  - intros Htest Hlen. rewrite Hrun.
    apply andb_true_iff in Htest as [Hs He].
    rewrite <- substring_swapped;
      [| apply length_nonneg | pose proof (length_nonneg suffix); lia | lia].
    assert (parameterMatch toLowerCase ci c
            = Some (Success (command_name c)
                      (Some (trim (substring ci (length prefix)
                                     (length ci - length suffix))))
                      (workflow_id c)
                      (lit "Ready to execute workflow with parameter"))) as ->;
      [|reflexivity].
    apply parameterMatch_some. repeat split; assumption.
Qed.

(** C5, as the code has it: when the cleaned input is not empty and some
    row without parameter equals it (cleaned, case folded), the function
    returns the first such row with a null parameter, whatever rows with a
    parameter come before or after it; and the example of the specification
    resolves to the row without parameter. *)
Theorem exact_match_wins :
  (forall (userInput : value) (rows : list Command) (c : Command),
     cleanTranscribedText userInput <> [] ->
     In c rows ->
     has_parameter c = false ->
     toLowerCase (cleanTranscribedText userInput)
     = toLowerCase (cleanTranscribedText (VString (command_name c))) ->
     exists pre c' post,
       rows = pre ++ c' :: post /\
       has_parameter c' = false /\
       toLowerCase (cleanTranscribedText userInput)
       = toLowerCase (cleanTranscribedText (VString (command_name c'))) /\
       Forall (fun d =>
                 has_parameter d = true \/
                 toLowerCase (cleanTranscribedText userInput)
                 <> toLowerCase (cleanTranscribedText (VString (command_name d))))
         pre /\
       findMatchingCommand toLowerCase userInput (Rows rows)
       = Return (Success (command_name c') None (workflow_id c')
                   (lit "Ready to execute workflow"))) /\
  (lowercasesAscii toLowerCase ->
   forall wf wf',
     findMatchingCommand toLowerCase (VString (lit "play song"))
       (Rows [play_song wf; play_song_name wf'])
     = Return (Success (lit "play song") None wf (lit "Ready to execute workflow"))).
Proof.
  split.
  - intros userInput rows c. apply exact_first.
  - intros Hlow wf wf'.
    rewrite (findMatchingCommand_ascii Hlow); [vm_compute; reflexivity | |];
      ascii_text.
Qed.

(** C6, as the code has it: when the cleaned input is not empty, a row
    without parameter whose cleaned, lowercased name is the cleaned,
    lowercased input makes the function return a success with a null
    parameter, whatever the rows after it are; the success is the one of
    that row unless an earlier row without parameter matched.  [HELLO WORLD]
    matches [hello world]. *)
Theorem exact_match_ignores_case :
  (forall (userInput : value) (pre post : list Command) (c : Command),
     cleanTranscribedText userInput <> [] ->
     has_parameter c = false ->
     toLowerCase (cleanTranscribedText userInput)
     = toLowerCase (cleanTranscribedText (VString (command_name c))) ->
     (exists command wf msg,
        findMatchingCommand toLowerCase userInput (Rows (pre ++ c :: post))
        = Return (Success command None wf msg)) /\
     (Forall (fun d =>
                has_parameter d = true \/
                toLowerCase (cleanTranscribedText userInput)
                <> toLowerCase (cleanTranscribedText (VString (command_name d))))
        pre ->
      findMatchingCommand toLowerCase userInput (Rows (pre ++ c :: post))
      = Return (Success (command_name c) None (workflow_id c)
                  (lit "Ready to execute workflow")))) /\
  (lowercasesAscii toLowerCase ->
   forall wf,
     findMatchingCommand toLowerCase (VString (lit "HELLO WORLD")) (Rows [hello wf])
     = Return (Success (lit "hello world") None wf (lit "Ready to execute workflow"))).
Proof.
  split.
  - intros userInput pre post c Hci Hp Heq. split.
    + destruct (@exact_first userInput (pre ++ c :: post) c)
        as (pre' & c' & post' & _ & _ & _ & _ & H); auto using in_elt.
      eauto.
    + intros Hpre. apply exact_phase; auto.
      eapply Forall_impl; [|exact Hpre]. intros d Hd.
      apply exactMatch_none, Hd.
  - intros Hlow wf.
    rewrite (findMatchingCommand_ascii Hlow); [vm_compute; reflexivity | |];
      ascii_text.
Qed.

(** C7: the parameter of a successful parameterized match is the trimmed
    [substring] of the cleaned input (not of its lowercased copy) from the
    length of the prefix to the length of the input minus the length of the
    suffix; when the two lengths fit into the input, it is the trimmed
    middle of the input between a beginning as long as the prefix and an
    end as long as the suffix.  [Search Batman On Youtube] gives
    [Batman]. *)
Theorem parameter_is_trimmed_slice :
  (forall (userInput : value) (queried : QueryResult)
          (command p : jsstring) (wf : value) (msg : jsstring),
     findMatchingCommand toLowerCase userInput queried
     = Return (Success command (Some p) wf msg) ->
     exists rows c,
       queried = Rows rows /\ In c rows /\ command = command_name c /\
       p = trim (substring (cleanTranscribedText userInput)
                   (length (prefixOf toLowerCase c))
                   (length (cleanTranscribedText userInput)
                    - length (suffixOf toLowerCase c))) /\
       ((length (prefixOf toLowerCase c) + length (suffixOf toLowerCase c)
         <= length (cleanTranscribedText userInput))%Z ->
        exists before middle after,
          cleanTranscribedText userInput = before ++ middle ++ after /\
          length before = length (prefixOf toLowerCase c) /\
          length after = length (suffixOf toLowerCase c) /\
          p = trim middle)) /\
  (lowercasesAscii toLowerCase ->
   forall wf,
     findMatchingCommand toLowerCase (VString (lit "Search Batman On Youtube"))
       (Rows [search_example wf])
     = Return (Success (lit "Search Example On Youtube") (Some (lit "Batman")) wf
                 (lit "Ready to execute workflow with parameter"))).
Proof.
  split.
  - intros userInput queried command p wf msg H.
    apply findMatchingCommand_success in H as (rows & -> & _ & H);
      [|reflexivity].
    exists rows. destruct H as [H | [_ H]];
      apply forRows_some in H as (pre & c & post & -> & _ & H).
    + apply exactMatch_some in H as (_ & _ & Hr). discriminate.
    + apply parameterMatch_some in H as (_ & _ & _ & _ & _ & Hr).
      injection Hr as -> -> -> ->.
      exists c. repeat split; [apply in_elt|].
      intros Hlen.
      destruct (@substring_between (cleanTranscribedText userInput)
                  (List.length (prefixOf toLowerCase c))
                  (List.length (suffixOf toLowerCase c)))
        as (before & middle & after & Hs & Hb & Ha & Hm).
      { unfold length in Hlen. lia. }
      exists before, middle, after. unfold length at 1 2 3 4.
      rewrite Hb, Ha. repeat split; [exact Hs|].
      f_equal. exact Hm.
  - intros Hlow wf.
    rewrite (findMatchingCommand_ascii Hlow); [vm_compute; reflexivity | |];
      ascii_text.
Qed.

End Results.

Lemma unmatched_parameter_never_matches_witness :
  has_parameter open_door = true /\
  exists r,
    findMatchingCommand toLowerCase_ascii (VString (lit "open window"))
      (Rows [open_door]) = Return r /\
    success r = false.
Proof.
  split; [reflexivity|].
  assert (~ Substring
            (toLowerCase_ascii (cleanTranscribedText (column (parameter_name open_door))))
            (toLowerCase_ascii (cleanTranscribedText (VString (command_name open_door)))))
    as Hno by (apply indexOf_absent; vm_compute; reflexivity).
  destruct (proj2 (@unmatched_parameter_never_matches toLowerCase_ascii open_door
                     eq_refl Hno) (VString (lit "open window")) [] [])
    as (r & Hr & _ & Hf).
  exists r. split; [exact Hr | apply Hf; reflexivity].
Defined.

Lemma success_reports_stored_command_witness :
  exists rows c,
    Rows [hello_world] = Rows rows /\ In c rows /\
    lit "Hello, World" = command_name c /\ workflow = workflow_id c.
Proof.
  destruct (@success_reports_stored_command toLowerCase_ascii
              (VString (lit "hello world")) (Rows [hello_world])
              (lit "Hello, World") None workflow (lit "Ready to execute workflow"))
    as (rows & c & H1 & H2 & H3 & H4 & _).
  - vm_compute. reflexivity.
  - exists rows, c. auto.
Defined.

(** C4 as stated fails on the row [play jazz play] with parameter [jazz] and
    the input [play play]: the prefix [play ] and the suffix [ play] have
    ten units together, the cleaned input has nine, and the function
    returns a success with the empty parameter. *)
Lemma overlapping_slice_counterexample :
  (length (prefixOf toLowerCase_ascii play_jazz_play)
   + length (suffixOf toLowerCase_ascii play_jazz_play)
   > length (cleanTranscribedText (VString (lit "play play"))))%Z /\
  findMatchingCommand toLowerCase_ascii (VString (lit "play play"))
    (Rows [play_jazz_play])
  = Return (Success (lit "play jazz play") (Some []) workflow
              (lit "Ready to execute workflow with parameter")) /\
  findMatchingCommand toLowerCase_ascii (VString (lit "play play"))
    (Rows [play_jazz_play])
  <> Return (Failure (lit "No matching command found")).
Proof.
  split; [vm_compute; reflexivity|].
  split; [vm_compute; reflexivity|].
  vm_compute. discriminate.
Qed.

Lemma overlapping_slice_still_matches_witness :
  (length (prefixOf toLowerCase_ascii play_jazz_play)
   + length (suffixOf toLowerCase_ascii play_jazz_play)
   > length (cleanTranscribedText (VString (lit "play play"))))%Z /\
  findMatchingCommand toLowerCase_ascii (VString (lit "play play"))
    (Rows [play_jazz_play])
  = Return (Success (lit "play jazz play") (Some []) workflow
              (lit "Ready to execute workflow with parameter")).
Proof.
  split; [reflexivity|].
  destruct (@overlapping_slice_still_matches toLowerCase_ascii
              (VString (lit "play play")) [] [] play_jazz_play) as [_ H].
  - vm_compute. discriminate.
  - reflexivity.
  - reflexivity.
  - reflexivity.
  - reflexivity.
  - vm_compute. discriminate.
  - exact (H eq_refl eq_refl).
Defined.

(** C5 as stated fails on the input [.] and the single row [.] without
    parameter: both are cleaned to the empty string, so the row equals the
    input after cleaning, and the function returns the failure of the empty
    input. *)
Lemma exact_match_wins_counterexample :
  has_parameter period = false /\
  toLowerCase_ascii (cleanTranscribedText (VString (lit ".")))
  = toLowerCase_ascii (cleanTranscribedText (VString (command_name period))) /\
  findMatchingCommand toLowerCase_ascii (VString (lit ".")) (Rows [period])
  = Return (Failure (lit "Empty command after cleaning")).
Proof. vm_compute. auto. Qed.

(** The row with a parameter comes first and would match [play song] with
    the parameter [song]; the function returns the row without parameter. *)
Lemma exact_match_wins_witness :
  parameterMatch toLowerCase_ascii (lit "play song") play_jazz
  = Some (Success (lit "play jazz") (Some (lit "song")) workflow
            (lit "Ready to execute workflow with parameter")) /\
  exists c,
    has_parameter c = false /\
    findMatchingCommand toLowerCase_ascii (VString (lit "play song"))
      (Rows [play_jazz; play_song workflow])
    = Return (Success (command_name c) None (workflow_id c)
                (lit "Ready to execute workflow")).
Proof.
  split; [reflexivity|].
  destruct (proj1 (@exact_match_wins toLowerCase_ascii)
              (VString (lit "play song")) [play_jazz; play_song workflow]
              (play_song workflow))
    as (pre & c & post & _ & Hp & _ & _ & H).
  - vm_compute. discriminate.
  - simpl. auto.
  - reflexivity.
  - reflexivity.
  - exists c. split; [exact Hp | exact H].
Defined.

(** C6 as stated fails on the input [?] and the single row [!] without
    parameter: both are cleaned to the empty string and are equal after
    case folding, and the function returns a failure. *)
Lemma exact_match_ignores_case_counterexample :
  has_parameter bang = false /\
  toLowerCase_ascii (cleanTranscribedText (VString (lit "?")))
  = toLowerCase_ascii (cleanTranscribedText (VString (command_name bang))) /\
  findMatchingCommand toLowerCase_ascii (VString (lit "?")) (Rows [bang])
  = Return (Failure (lit "Empty command after cleaning")) /\
  success (Failure (lit "Empty command after cleaning")) = false.
Proof. vm_compute. auto. Qed.

Lemma exact_match_ignores_case_witness :
  findMatchingCommand toLowerCase_ascii (VString (lit "HELLO WORLD"))
    (Rows [hello workflow])
  = Return (Success (lit "hello world") None workflow
              (lit "Ready to execute workflow")).
Proof.
  apply (proj2 (proj1 (@exact_match_ignores_case toLowerCase_ascii)
                  (VString (lit "HELLO WORLD")) [] [] (hello workflow)
                  ltac:(vm_compute; discriminate) eq_refl eq_refl)).
  constructor.
Defined.

Lemma parameter_is_trimmed_slice_witness :
  exists before middle after,
    cleanTranscribedText (VString (lit "Search Batman On Youtube"))
    = before ++ middle ++ after /\
    lit "Batman" = trim middle.
Proof.
  destruct (proj1 (@parameter_is_trimmed_slice toLowerCase_ascii)
              (VString (lit "Search Batman On Youtube"))
              (Rows [search_example workflow])
              (lit "Search Example On Youtube") (lit "Batman") workflow
              (lit "Ready to execute workflow with parameter"))
    as (rows & c & Hrows & Hin & _ & _ & H).
  - vm_compute. reflexivity.
  - injection Hrows as <-. destruct Hin as [<- | []].
    destruct H as (before & middle & after & Hs & _ & _ & Hp).
    + vm_compute. discriminate.
    + exists before, middle, after. split; assumption.
Defined.

(** ** Further facts about white space and the cleaner *)

Lemma trimStart_blank_app (w r : jsstring) :
  blank w -> trimStart (w ++ r) = trimStart r.
Proof.
  induction 1 as [|c w Hc _ IH]; simpl; [reflexivity|].
  rewrite Hc. exact IH.
Qed.

Lemma trimStart_blank (w : jsstring) : blank w -> trimStart w = [].
Proof.
  intros H. rewrite <- (app_nil_r w). apply (@trimStart_blank_app w [] H).
Qed.

Lemma trimStart_head (s r : jsstring) (c : N) :
  trimStart s = c :: r -> isWhiteSpace c = false.
Proof.
  induction s as [|x s IH]; simpl; [discriminate|].
  destruct (isWhiteSpace x) eqn:Hx; [exact IH|].
  intros H. injection H as <- _. exact Hx.
Qed.

Lemma trimStart_trimStart (s : jsstring) : trimStart (trimStart s) = trimStart s.
Proof.
  induction s as [|x s IH]; simpl; [reflexivity|].
  destruct (isWhiteSpace x) eqn:Hx; [exact IH|].
  simpl. rewrite Hx. reflexivity.
Qed.

Lemma trimStart_snoc (a : jsstring) (c : N) :
  isWhiteSpace c = false -> trimStart (a ++ [c]) = trimStart a ++ [c].
Proof.
  intros Hc. induction a as [|x a IH]; simpl.
  - rewrite Hc. reflexivity.
  - destruct (isWhiteSpace x); [exact IH | reflexivity].
Qed.

Lemma trimStart_split (s : jsstring) :
  exists pre, blank pre /\ s = pre ++ trimStart s.
Proof.
  induction s as [|c s (pre & Hb & IH)]; simpl.
  - exists []. split; [constructor | reflexivity].
  - destruct (isWhiteSpace c) eqn:Hc.
    + exists (c :: pre). split; [constructor; assumption|].
      simpl. f_equal. exact IH.
    + exists []. split; [constructor | reflexivity].
Qed.

Lemma trimEnd_cons (c : N) (z : jsstring) :
  isWhiteSpace c = false -> trimEnd (c :: z) = c :: trimEnd z.
Proof.
  intros Hc. unfold trimEnd. simpl.
  rewrite trimStart_snoc by exact Hc. rewrite rev_app_distr. reflexivity.
Qed.

Lemma trimEnd_blank_app (z e : jsstring) :
  blank e -> trimEnd (z ++ e) = trimEnd z.
Proof.
  intros He. unfold trimEnd. rewrite rev_app_distr.
  rewrite trimStart_blank_app; [reflexivity|]. apply Forall_rev, He.
Qed.

Lemma trimEnd_trimEnd (z : jsstring) : trimEnd (trimEnd z) = trimEnd z.
Proof.
  unfold trimEnd. rewrite rev_involutive, trimStart_trimStart. reflexivity.
Qed.

Lemma trimEnd_split (s : jsstring) :
  exists post, blank post /\ s = trimEnd s ++ post.
Proof.
  destruct (trimStart_split (rev s)) as (pre & Hb & H).
  exists (rev pre). split; [apply Forall_rev, Hb|].
  unfold trimEnd. rewrite <- rev_app_distr, <- H, rev_involutive. reflexivity.
Qed.

(** [trim] takes a blank beginning and a blank end away. *)
Lemma trim_split (s : jsstring) :
  exists lw tw, blank lw /\ blank tw /\ s = lw ++ trim s ++ tw.
Proof.
  destruct (trimStart_split s) as (lw & Hl & Hs).
  destruct (trimEnd_split (trimStart s)) as (tw & Ht & Hz).
  exists lw, tw. repeat split; try assumption.
  unfold trim. rewrite <- Hz. exact Hs.
Qed.

Lemma trim_blank_app_l (w y : jsstring) : blank w -> trim (w ++ y) = trim y.
Proof. intros H. unfold trim. rewrite trimStart_blank_app by exact H. reflexivity. Qed.

Lemma trim_blank_app_r (y e : jsstring) : blank e -> trim (y ++ e) = trim y.
Proof.
  intros He. unfold trim. induction y as [|c y IH]; simpl.
  - rewrite (trimStart_blank He). reflexivity.
  - destruct (isWhiteSpace c); [exact IH|].
    apply (@trimEnd_blank_app (c :: y) e He).
Qed.

(** Trimming twice is trimming once. *)
Lemma trim_trim (s : jsstring) : trim (trim s) = trim s.
Proof.
  unfold trim. destruct (trimStart s) as [|c z] eqn:Hz; [reflexivity|].
  pose proof (trimStart_head _ Hz) as Hc.
  rewrite trimEnd_cons by exact Hc. simpl. rewrite Hc.
  rewrite trimEnd_cons by exact Hc. rewrite trimEnd_trimEnd. reflexivity.
Qed.

Lemma trim_first (s r : jsstring) (c : N) :
  trim s = c :: r -> isWhiteSpace c = false.
Proof.
  unfold trim. destruct (trimStart s) as [|x z] eqn:Hz; [discriminate|].
  pose proof (trimStart_head _ Hz) as Hx.
  rewrite trimEnd_cons by exact Hx. intros H. injection H as <- _. exact Hx.
Qed.

Lemma trim_last (s r : jsstring) (c : N) :
  trim s = r ++ [c] -> isWhiteSpace c = false.
Proof.
  unfold trim, trimEnd. intros H.
  apply (f_equal (@rev N)) in H. rewrite rev_involutive, rev_app_distr in H.
  simpl in H. eapply trimStart_head, H.
Qed.

Lemma replaceRuns_trimStart (x : jsstring) :
  trimStart (replaceRuns true x) = trimStart (replaceRuns false x).
Proof.
  destruct x as [|c x]; simpl; [reflexivity|].
  destruct (isWhiteSpace c); reflexivity.
Qed.

Lemma replaceRuns_blank (b : bool) (e : jsstring) :
  blank e -> blank (replaceRuns b e).
Proof. apply Forall_replaceRuns. reflexivity. Qed.

Lemma replaceRuns_app_blank (b : bool) (x e : jsstring) :
  blank e ->
  exists e', blank e' /\ replaceRuns b (x ++ e) = replaceRuns b x ++ e'.
Proof.
  intros He. revert b; induction x as [|c x IH]; intros b; simpl.
  - exists (replaceRuns b e). split; [apply replaceRuns_blank, He | reflexivity].
  - destruct (isWhiteSpace c); [destruct b|].
    + apply IH.
    + destruct (IH true) as (e' & He' & ->). exists e'. auto.
    + destruct (IH false) as (e' & He' & ->). exists e'. auto.
Qed.

Lemma normalized_replaceRuns (b : bool) (s : jsstring) :
  normalized b (replaceRuns b s) = true.
Proof.
  revert b; induction s as [|c s IH]; intros b; simpl; [reflexivity|].
  destruct (isWhiteSpace c) eqn:Hc.
  - destruct b; [apply IH|]. simpl. apply IH.
  - simpl. rewrite Hc. apply IH.
Qed.

(** A text in normal form is left as it is by the replacement of the runs. *)
Lemma normalized_fixed (b : bool) (s : jsstring) :
  normalized b s = true -> replaceRuns b s = s.
Proof.
  revert b; induction s as [|c s IH]; intros b; simpl; [reflexivity|].
  destruct (isWhiteSpace c).
  - intros H. apply andb_true_iff in H as [H Hs].
    apply andb_true_iff in H as [Hb Hc].
    apply negb_true_iff in Hb. apply N.eqb_eq in Hc. subst b c.
    f_equal. apply IH, Hs.
  - intros H. f_equal. apply IH, H.
Qed.

Lemma normalized_weaken (b : bool) (s : jsstring) :
  normalized b s = true -> normalized false s = true.
Proof.
  destruct s as [|c s]; simpl; [reflexivity|].
  destruct (isWhiteSpace c); [|auto].
  destruct b; simpl; [discriminate | auto].
Qed.

Lemma normalized_tail (b : bool) (a s : jsstring) :
  normalized b (a ++ s) = true -> normalized false s = true.
Proof.
  revert b; induction a as [|c a IH]; intros b; simpl.
  - apply normalized_weaken.
  - destruct (isWhiteSpace c); [|apply IH].
    intros H. apply andb_true_iff in H as [_ H]. eapply IH, H.
Qed.

Lemma normalized_prefix (b : bool) (a s : jsstring) :
  normalized b (a ++ s) = true -> normalized b a = true.
Proof.
  revert b; induction a as [|c a IH]; intros b; simpl; [reflexivity|].
  destruct (isWhiteSpace c); [|apply IH].
  intros H. apply andb_true_iff in H as [H1 H].
  rewrite H1. simpl. eapply IH, H.
Qed.

Lemma normalized_trim (s : jsstring) :
  normalized false s = true -> normalized false (trim s) = true.
Proof.
  intros H. destruct (trim_split s) as (lw & tw & _ & _ & Hs).
  rewrite Hs in H. eapply normalized_prefix, normalized_tail, H.
Qed.

Lemma normalized_space (b : bool) (s : jsstring) (c : N) :
  normalized b s = true -> In c s -> isWhiteSpace c = true -> c = SPACE.
Proof.
  revert b; induction s as [|x s IH]; intros b H Hin Hc; [contradiction|].
  simpl in H. destruct Hin as [->|Hin].
  - rewrite Hc in H. apply andb_true_iff in H as [H _].
    apply andb_true_iff in H as [_ H]. apply N.eqb_eq, H.
  - destruct (isWhiteSpace x); [|eapply IH; eassumption].
    apply andb_true_iff in H as [_ H]. eapply IH; eassumption.
Qed.

Lemma normalized_no_pair (b : bool) (s pre post : jsstring) (x y : N) :
  normalized b s = true -> s = pre ++ x :: y :: post ->
  isWhiteSpace x && isWhiteSpace y = false.
Proof.
  revert b s; induction pre as [|c pre IH]; intros b s H ->; simpl in H.
  - destruct (isWhiteSpace x); [|reflexivity].
    apply andb_true_iff in H as [_ H].
    destruct (isWhiteSpace y); [|reflexivity].
    simpl in H. discriminate.
  - destruct (isWhiteSpace c).
    + apply andb_true_iff in H as [_ H]. eapply IH; [exact H | reflexivity].
    + eapply IH; [exact H | reflexivity].
Qed.

(** The cleaned text is the trimming of a text in normal form. *)
Lemma cleanTranscribedText_shape (text : value) :
  exists y, normalized false y = true /\ cleanTranscribedText text = trim y.
Proof.
  unfold cleanTranscribedText.
  destruct (negb (toBoolean text) || negb (jstype_eqb (typeof text) TString));
    [exists []; auto|].
  destruct text; try (exists []; split; reflexivity).
  unfold cleanString, replaceWhiteSpace.
  eexists. split; [apply normalized_replaceRuns | reflexivity].
Qed.

Lemma cleanTranscribedText_string (s : jsstring) :
  cleanTranscribedText (VString s) = cleanString s.
Proof. destruct s; reflexivity. Qed.

Lemma whitespace_not_punctuation (c : N) :
  isWhiteSpace c = true -> isPunctuation c = false.
Proof.
  intros Hw. destruct (isPunctuation c) eqn:Hp; [|reflexivity].
  unfold isPunctuation, includes, punctuationChars in Hp. simpl in Hp.
  repeat (apply orb_true_iff in Hp as [Hp|Hp];
          [apply N.eqb_eq in Hp; subst c; vm_compute in Hw; discriminate Hw|]).
  discriminate.
Qed.

Lemma blank_punctuationFree (e : jsstring) : blank e -> punctuationFree e.
Proof.
  intros H. eapply Forall_impl; [|exact H].
  intros c Hc. apply whitespace_not_punctuation, Hc.
Qed.

Lemma filter_map_shift (f : nat -> bool) (l : list nat) :
  filter f (map S l) = map S (filter (fun i => f (S i)) l).
Proof.
  induction l as [|i l IH]; simpl; [reflexivity|].
  destruct (f (S i)); simpl; rewrite IH; reflexivity.
Qed.

(** The punctuation indexes of a text, from those of its tail. *)
Lemma punctuationPositions_cons (w : N) (s : jsstring) :
  punctuationPositions (w :: s)
  = (if isPunctuation w then [O] else []) ++ map S (punctuationPositions s).
Proof.
  unfold punctuationPositions. cbn [List.length seq].
  rewrite <- seq_shift. cbn [filter].
  change (punctuationAt (w :: s) 0) with (isPunctuation w).
  rewrite filter_map_shift.
  destruct (isPunctuation w); reflexivity.
Qed.

Lemma punctuationPositions_free (s : jsstring) :
  punctuationFree s -> punctuationPositions s = [].
Proof.
  induction 1 as [|c s Hc _ IH]; [reflexivity|].
  rewrite punctuationPositions_cons, Hc, IH. reflexivity.
Qed.

Lemma punctuationPositions_app_free (s e : jsstring) :
  punctuationFree e -> punctuationPositions (s ++ e) = punctuationPositions s.
Proof.
  intros He. induction s as [|c s IH]; simpl.
  - apply punctuationPositions_free, He.
  - rewrite !punctuationPositions_cons, IH. reflexivity.
Qed.

Lemma punctuationPositions_single (a b : jsstring) (c : N) :
  punctuationFree a -> isPunctuation c = true -> punctuationFree b ->
  punctuationPositions (a ++ c :: b) = [List.length a].
Proof.
  intros Ha Hc Hb. induction Ha as [|x a Hx _ IH]; simpl.
  - rewrite punctuationPositions_cons, Hc, (punctuationPositions_free Hb).
    reflexivity.
  - rewrite punctuationPositions_cons, Hx, IH. reflexivity.
Qed.

Lemma fold_splice1_cons (w : N) (s : jsstring) (l : list nat) :
  fold_right (@splice1 N) (w :: s) (map S l) = w :: fold_right (@splice1 N) s l.
Proof.
  induction l as [|i l IH]; simpl; [reflexivity|]. rewrite IH. reflexivity.
Qed.

Lemma afterRemoval_cons (w : N) (s : jsstring) :
  isPunctuation w = false -> afterRemoval (w :: s) = w :: afterRemoval s.
Proof.
  intros Hw. unfold afterRemoval.
  rewrite punctuationPositions_cons, Hw. simpl app.
  rewrite <- map_rev. apply fold_splice1_cons.
Qed.

Lemma splice1_middle (a b : jsstring) (c : N) :
  splice1 (List.length a) (a ++ c :: b) = a ++ b.
Proof.
  unfold splice1. induction a as [|x a IH]; simpl; [reflexivity|].
  f_equal. exact IH.
Qed.

Lemma splice1_app_blank (x : nat) (a e : jsstring) :
  blank e -> exists e', blank e' /\ splice1 x (a ++ e) = splice1 x a ++ e'.
Proof.
  intros He. unfold splice1. rewrite firstn_app, skipn_app.
  destruct (Nat.lt_ge_cases x (List.length a)) as [Hx|Hx].
  - exists e. split; [exact He|].
    replace (x - List.length a)%nat with 0%nat by lia.
    replace (S x - List.length a)%nat with 0%nat by lia.
    simpl. rewrite app_nil_r, app_assoc. reflexivity.
  - exists (firstn (x - List.length a) e ++ skipn (S x - List.length a) e).
    split.
    + apply Forall_app. split; [apply Forall_firstn | apply Forall_skipn]; exact He.
    + rewrite (firstn_all2 a) by lia. rewrite (skipn_all2 a) by lia.
      cbn [app]. rewrite app_nil_r, app_assoc. reflexivity.
Qed.

Lemma fold_splice1_app_blank (l : list nat) (a e : jsstring) :
  blank e ->
  exists e', blank e' /\
    fold_right (@splice1 N) (a ++ e) l = fold_right (@splice1 N) a l ++ e'.
Proof.
  intros He. induction l as [|i l (e1 & He1 & IH)]; simpl.
  - exists e. auto.
  - rewrite IH. apply splice1_app_blank, He1.
Qed.

Lemma cleanString_afterRemoval (text : jsstring) :
  cleanString text = trim (replaceWhiteSpace (afterRemoval text)).
Proof. apply cleanString_removal_order. Qed.

Lemma cleanString_blank_cons (w : N) (s : jsstring) :
  isWhiteSpace w = true -> cleanString (w :: s) = cleanString s.
Proof.
  intros Hw. rewrite !cleanString_afterRemoval.
  rewrite afterRemoval_cons by (apply whitespace_not_punctuation, Hw).
  unfold replaceWhiteSpace, trim. cbn [replaceRuns]. rewrite Hw.
  cbn [trimStart]. change (isWhiteSpace SPACE) with true. cbv iota.
  rewrite replaceRuns_trimStart. reflexivity.
Qed.

Lemma cleanString_blank_app_l (w s : jsstring) :
  blank w -> cleanString (w ++ s) = cleanString s.
Proof.
  induction 1 as [|c w Hc _ IH]; simpl; [reflexivity|].
  rewrite cleanString_blank_cons by exact Hc. exact IH.
Qed.

Lemma cleanString_blank_app_r (s e : jsstring) :
  blank e -> cleanString (s ++ e) = cleanString s.
Proof.
  intros He. rewrite !cleanString_afterRemoval. unfold afterRemoval.
  rewrite punctuationPositions_app_free by (apply blank_punctuationFree, He).
  destruct (fold_splice1_app_blank (rev (punctuationPositions s)) s He)
    as (e1 & He1 & ->).
  unfold replaceWhiteSpace.
  destruct (replaceRuns_app_blank false
              (fold_right (@splice1 N) s (rev (punctuationPositions s))) He1)
    as (e2 & He2 & ->).
  apply trim_blank_app_r, He2.
Qed.

Lemma cleanString_trim (s : jsstring) : cleanString (trim s) = cleanString s.
Proof.
  destruct (trim_split s) as (lw & tw & Hl & Ht & Hs).
  rewrite Hs at 2.
  rewrite cleanString_blank_app_l by exact Hl.
  rewrite cleanString_blank_app_r by exact Ht.
  reflexivity.
Qed.

Lemma punctuationFree_cleanString (s : jsstring) :
  punctuationFree (afterRemoval s) -> punctuationFree (cleanString s).
Proof.
  intros H. rewrite cleanString_afterRemoval. unfold replaceWhiteSpace.
  apply Forall_trim, Forall_replaceRuns; [reflexivity | exact H].
Qed.

(** ** Further properties of the text cleaner *)

(** X1: whatever the input, the cleaned text has its white space in normal
    form: it neither starts nor ends with a white space character, every
    white space character in it is a space, and no two of them are
    adjacent. *)
Theorem cleaned_text_white_space_normal (text : value) :
  (forall c r, cleanTranscribedText text = c :: r -> isWhiteSpace c = false) /\
  (forall c r, cleanTranscribedText text = r ++ [c] -> isWhiteSpace c = false) /\
  (forall c, In c (cleanTranscribedText text) -> isWhiteSpace c = true -> c = SPACE) /\
  (forall pre x y post,
     cleanTranscribedText text = pre ++ x :: y :: post ->
     isWhiteSpace x && isWhiteSpace y = false).
Proof.
  destruct (cleanTranscribedText_shape text) as (y & Hy & ->).
  pose proof (@normalized_trim y Hy) as Hn.
  repeat split.
  - intros c r H. eapply trim_first, H.
  - intros c r H. eapply trim_last, H.
  - intros c Hin Hc. eapply normalized_space; eassumption.
  - intros pre a b post H. eapply normalized_no_pair; eassumption.
Qed.

(** X2: the cleaner changes no character: every code unit of the cleaned
    text is a code unit of the input (in its original case) or a space. *)
Theorem cleaned_text_units_from_input (s : jsstring) :
  Forall (fun c => c = SPACE \/ In c s) (cleanTranscribedText (VString s)).
Proof.
  apply Forall_cleanTranscribedText; [left; reflexivity|].
  intros t Ht. injection Ht as <-.
  apply Forall_forall. intros c Hc. right. exact Hc.
Qed.

(** X3: a text with exactly one punctuation character is cleaned as the
    text without that character, and the cleaned text is free of
    punctuation; a text without punctuation only has its white space
    normalized. *)
Theorem single_punctuation_removed (a b : jsstring) (c : N) :
  punctuationFree a -> punctuationFree b -> isPunctuation c = true ->
  cleanTranscribedText (VString (a ++ c :: b)) = trim (replaceWhiteSpace (a ++ b)) /\
  cleanTranscribedText (VString (a ++ b)) = trim (replaceWhiteSpace (a ++ b)) /\
  punctuationFree (cleanTranscribedText (VString (a ++ c :: b))).
Proof.
  intros Ha Hb Hc.
  assert (afterRemoval (a ++ c :: b) = a ++ b) as H1.
  { unfold afterRemoval. rewrite punctuationPositions_single by assumption.
    simpl. apply splice1_middle. }
  assert (punctuationFree (a ++ b)) as Hab by (apply Forall_app; auto).
  assert (afterRemoval (a ++ b) = a ++ b) as H2.
  { unfold afterRemoval. rewrite punctuationPositions_free by assumption.
    reflexivity. }
  rewrite !cleanTranscribedText_string. repeat split.
  - rewrite cleanString_afterRemoval, H1. reflexivity.
  - rewrite cleanString_afterRemoval, H2. reflexivity.
  - apply punctuationFree_cleanString. rewrite H1. exact Hab.
Qed.

Lemma single_punctuation_removed_witness :
  cleanTranscribedText (VString (lit "Hello" ++ 44%N :: lit " World"))
  = trim (replaceWhiteSpace (lit "Hello" ++ lit " World")).
Proof.
  apply (@single_punctuation_removed (lit "Hello") (lit " World") 44%N).
  - repeat constructor.
  - repeat constructor.
  - reflexivity.
Defined.

(** X4: whenever the cleaned text holds no punctuation character, cleaning
    it again gives it back. *)
Theorem cleaning_again_when_punctuation_free (text : value) :
  punctuationFree (cleanTranscribedText text) ->
  cleanTranscribedText (VString (cleanTranscribedText text))
  = cleanTranscribedText text.
Proof.
  intros Hfree. rewrite cleanTranscribedText_string, cleanString_afterRemoval.
  unfold afterRemoval. rewrite punctuationPositions_free by assumption. simpl.
  destruct (cleanTranscribedText_shape text) as (y & Hy & ->).
  unfold replaceWhiteSpace.
  rewrite normalized_fixed by (apply normalized_trim, Hy). apply trim_trim.
Qed.

Lemma cleaning_again_when_punctuation_free_witness :
  cleanTranscribedText (VString (cleanTranscribedText (VString (lit "Hello,  World "))))
  = cleanTranscribedText (VString (lit "Hello,  World ")).
Proof.
  apply (@cleaning_again_when_punctuation_free (VString (lit "Hello,  World "))).
  vm_compute. repeat constructor.
Defined.

(** X5: trimming a text before it is cleaned changes nothing: the cleaned
    text of [s.trim()] is the cleaned text of [s]. *)
Theorem trim_before_cleaning_redundant (s : jsstring) :
  cleanTranscribedText (VString (trim s)) = cleanTranscribedText (VString s).
Proof. rewrite !cleanTranscribedText_string. apply cleanString_trim. Qed.

(** ** Further properties of the matching engine *)

Section MoreResults.

Variable toLowerCase : jsstring -> jsstring.

(** The function looks at its input through the cleaned text only. *)
Lemma findMatchingCommand_cleaned (a b : value) (queried : QueryResult) :
  cleanTranscribedText a = cleanTranscribedText b ->
  findMatchingCommand toLowerCase a queried = findMatchingCommand toLowerCase b queried.
Proof. intros H. unfold findMatchingCommand. rewrite H. reflexivity. Qed.

(** A row on which both loop bodies fall through for every input can be
    taken out of the rows, as long as a row is left. *)
Lemma row_skipped (c : Command) (userInput : value) (pre post : list Command) :
  (forall ci, exactMatch toLowerCase ci c = None) ->
  (forall ci, parameterMatch toLowerCase ci c = None) ->
  pre ++ post <> [] ->
  findMatchingCommand toLowerCase userInput (Rows (pre ++ c :: post))
  = findMatchingCommand toLowerCase userInput (Rows (pre ++ post)).
Proof.
  intros He Hp Hne. unfold findMatchingCommand.
  destruct (negb _); [reflexivity|].
  destruct (pre ++ post) as [|d l] eqn:Hl; [contradiction|].
  destruct (pre ++ c :: post) as [|d' l'] eqn:Hl'; [destruct pre; discriminate|].
  cbn [List.length Nat.eqb]. f_equal. rewrite <- Hl, <- Hl'.
  unfold matchRows.
  rewrite (@forRows_skip _ pre post c (He _)), (@forRows_skip _ pre post c (Hp _)).
  reflexivity.
Qed.

Lemma row_alone (c : Command) (userInput : value) :
  (forall ci, exactMatch toLowerCase ci c = None) ->
  (forall ci, parameterMatch toLowerCase ci c = None) ->
  exists m, findMatchingCommand toLowerCase userInput (Rows [c]) = Return (Failure m).
Proof.
  intros He Hp. unfold findMatchingCommand.
  destruct (negb _); [eauto|].
  cbn [List.length Nat.eqb]. unfold matchRows. simpl. rewrite He, Hp. eauto.
Qed.

Lemma forRows_filter (body : Command -> option MatchResult)
    (f : Command -> bool) (rows : list Command) :
  (forall c, f c = false -> body c = None) ->
  forRows body (filter f rows) = forRows body rows.
Proof.
  intros H. induction rows as [|c rows IH]; simpl; [reflexivity|].
  destruct (f c) eqn:Hf; simpl.
  - rewrite IH. reflexivity.
  - rewrite (H c Hf). exact IH.
Qed.

Lemma filter_both_nil (f : Command -> bool) (rows : list Command) :
  filter f rows = [] -> filter (fun c => negb (f c)) rows = [] -> rows = [].
Proof.
  destruct rows as [|c rows]; [reflexivity|]. simpl.
  destruct (f c); simpl; discriminate.
Qed.

(** The four ways through the function. *)
Lemma findMatchingCommand_cases (userInput : value) (queried : QueryResult) :
  (cleanTranscribedText userInput = [] /\
   findMatchingCommand toLowerCase userInput queried
   = Return (Failure (lit "Empty command after cleaning"))) \/
  (cleanTranscribedText userInput <> [] /\
   exists error,
     queried = Rejected error /\
     findMatchingCommand toLowerCase userInput queried = Throw error) \/
  (cleanTranscribedText userInput <> [] /\ queried = Rows [] /\
   findMatchingCommand toLowerCase userInput queried
   = Return (Failure (lit "No commands found for this user"))) \/
  (cleanTranscribedText userInput <> [] /\
   exists rows,
     queried = Rows rows /\ rows <> [] /\
     findMatchingCommand toLowerCase userInput queried
     = Return (matchRows toLowerCase (cleanTranscribedText userInput) rows)).
Proof.
  unfold findMatchingCommand.
  destruct (cleanTranscribedText userInput) as [|u ci]; cbn [toBoolean negb].
  - left. auto.
  - right. destruct queried as [rows|err].
    + right. destruct rows as [|c rows]; cbn [List.length Nat.eqb].
      * left. repeat split. discriminate.
      * right. split; [discriminate|]. exists (c :: rows).
        repeat split. discriminate.
    + left. split; [discriminate|]. exists err. auto.
Qed.

(** The two loops fail with one message only, and only when both bodies
    fall through on every row. *)
Lemma matchRows_failure (ci : jsstring) (rows : list Command) (m : jsstring) :
  matchRows toLowerCase ci rows = Failure m ->
  m = lit "No matching command found" /\
  Forall (fun d =>
            exactMatch toLowerCase ci d = None /\
            parameterMatch toLowerCase ci d = None) rows.
Proof.
  unfold matchRows.
  destruct (forRows (exactMatch toLowerCase ci) rows) as [r|] eqn:H1.
  - intros ->. apply forRows_exact_success in H1. discriminate.
  - destruct (forRows (parameterMatch toLowerCase ci) rows) as [r|] eqn:H2.
    + intros ->. apply forRows_parameter_success in H2. discriminate.
    + intros H. injection H as <-. split; [reflexivity|].
      apply forRows_none in H1, H2. rewrite Forall_forall in *.
      intros d Hd. split; auto.
Qed.

(** X6: on a transcription that is a string, the voice path hands the
    matcher a text with the same cleaned form as the text path would get:
    unless the transcription is blank, the voice step gives exactly the
    result of [findMatchingCommand] on the untrimmed text; on a blank
    transcription the voice step answers [No speech detected] where the
    matcher would answer [Empty command after cleaning]. *)
Theorem voice_path_agrees_with_text_path (s : jsstring) (queried : QueryResult) :
  (trim s <> [] ->
   matchTranscription toLowerCase (VString s) queried
   = Matching (findMatchingCommand toLowerCase (VString s) queried)) /\
  (trim s = [] ->
   matchTranscription toLowerCase (VString s) queried = NoSpeech /\
   findMatchingCommand toLowerCase (VString s) queried
   = Return (Failure (lit "Empty command after cleaning"))).
Proof.
  split.
  - intros Ht. unfold matchTranscription.
    destruct s as [|c s]; [contradiction Ht; reflexivity|].
    cbn [toBoolean negb].
    destruct (streq (trim (c :: s)) []) eqn:He;
      [apply streq_eq in He; contradiction|].
    f_equal. apply findMatchingCommand_cleaned.
    rewrite !cleanTranscribedText_string. apply cleanString_trim.
  - intros Ht. split.
    + unfold matchTranscription. destruct s as [|c s]; [reflexivity|].
      cbn [toBoolean negb]. rewrite Ht. reflexivity.
    + unfold findMatchingCommand.
      rewrite cleanTranscribedText_string, <- cleanString_trim, Ht. reflexivity.
Qed.

Lemma return_inj (A : Type) (a b : A) : @Return A a = Return b -> a = b.
Proof. intros H. injection H. auto. Qed.

Lemma failure_message_inj (a b : jsstring) :
  @Return MatchResult (Failure a) = Return (Failure b) -> a = b.
Proof. intros H. injection H. auto. Qed.

Lemma messages_distinct :
  lit "Empty command after cleaning" <> lit "No commands found for this user" /\
  lit "Empty command after cleaning" <> lit "No matching command found" /\
  lit "No commands found for this user" <> lit "No matching command found".
Proof. repeat split; vm_compute; discriminate. Qed.

(** X7: the outcomes other than a success, and exactly when each arises.
    The failure [Empty command after cleaning] is returned exactly when the
    cleaned input is empty, whatever the query would give; the function
    throws exactly when the cleaned input is not empty and the query is
    rejected, and then it throws the error of the query; [No commands found
    for this user] is returned exactly for a non-empty cleaned input and no
    rows; [No matching command found] exactly for a non-empty cleaned input
    and rows on all of which both loop bodies fall through. *)
Theorem failure_outcomes (userInput : value) (queried : QueryResult) :
  (findMatchingCommand toLowerCase userInput queried
   = Return (Failure (lit "Empty command after cleaning"))
   <-> cleanTranscribedText userInput = []) /\
  (forall error,
     findMatchingCommand toLowerCase userInput queried = Throw error
     <-> cleanTranscribedText userInput <> [] /\ queried = Rejected error) /\
  (findMatchingCommand toLowerCase userInput queried
   = Return (Failure (lit "No commands found for this user"))
   <-> cleanTranscribedText userInput <> [] /\ queried = Rows []) /\
  (findMatchingCommand toLowerCase userInput queried
   = Return (Failure (lit "No matching command found"))
   <-> cleanTranscribedText userInput <> [] /\
       exists rows,
         queried = Rows rows /\ rows <> [] /\
         Forall (fun c =>
                   exactMatch toLowerCase (cleanTranscribedText userInput) c = None /\
                   parameterMatch toLowerCase (cleanTranscribedText userInput) c = None)
           rows).
Proof.
  destruct messages_distinct as (M1 & M2 & M3).
  pose proof (matchRows_failure (cleanTranscribedText userInput)) as Hfail.
  destruct (findMatchingCommand_cases userInput queried)
    as [[Hc ->] | [(Hc & e & -> & ->) | [(Hc & -> & ->) | (Hc & rows & -> & Hr & ->)]]].
  - split; [|split; [|split]].
    + split; auto.
    + intros error. split; [discriminate|]. intros [H _]. contradiction.
    + split.
      * intros H. apply failure_message_inj in H. contradiction.
      * intros [H _]. contradiction.
    + split.
      * intros H. apply failure_message_inj in H. contradiction.
      * intros [H _]. contradiction.
  - split; [|split; [|split]].
    + split; [discriminate|]. intros H. contradiction.
    + intros error. split.
      * intros H. injection H as ->. auto.
      * intros [_ H]. injection H as ->. reflexivity.
    + split; [discriminate|]. intros [_ H]. discriminate.
    + split; [discriminate|]. intros (_ & rows & H & _). discriminate.
  - split; [|split; [|split]].
    + split.
      * intros H. apply failure_message_inj in H. symmetry in H. contradiction.
      * intros H. contradiction.
    + intros error. split; [discriminate|]. intros [_ H]. discriminate.
    + split; auto.
    + split.
      * intros H. apply failure_message_inj in H. contradiction.
      * intros (_ & rows & H & Hne & _). injection H as <-. contradiction.
  - split; [|split; [|split]].
    + split.
      * intros H. apply return_inj in H. apply Hfail in H as [H _].
        contradiction.
      * intros H. contradiction.
    + intros error. split; [discriminate|]. intros [_ H]. discriminate.
    + split.
      * intros H. apply return_inj in H. apply Hfail in H as [H _].
        contradiction.
      * intros [_ H]. injection H as ->. contradiction.
    + split.
      * intros H. apply return_inj in H. apply Hfail in H as [_ H].
        split; [assumption|]. exists rows. auto.
      * intros (_ & rows' & H & _ & Hall). injection H as <-.
        f_equal. unfold matchRows.
        assert (forRows (exactMatch toLowerCase (cleanTranscribedText userInput)) rows
                = None) as ->.
        { apply forRows_none. eapply Forall_impl; [|exact Hall]. intros d [H _]; exact H. }
        assert (forRows (parameterMatch toLowerCase (cleanTranscribedText userInput)) rows
                = None) as ->.
        { apply forRows_none. eapply Forall_impl; [|exact Hall]. intros d [_ H]; exact H. }
        reflexivity.
Qed.

(** X8: the result does not depend on how the rows without parameter and
    the rows with a parameter are interleaved: two lists of rows with the
    same rows without parameter, in the same order, and the same rows with a
    parameter, in the same order, give the same result. *)
Theorem order_between_phases_irrelevant (userInput : value)
    (rows rows' : list Command) :
  filter (fun c => negb (has_parameter c)) rows'
  = filter (fun c => negb (has_parameter c)) rows ->
  filter has_parameter rows' = filter has_parameter rows ->
  findMatchingCommand toLowerCase userInput (Rows rows')
  = findMatchingCommand toLowerCase userInput (Rows rows).
Proof.
  intros Hn Hp. unfold findMatchingCommand.
  destruct (negb _); [reflexivity|].
  assert (forall ci l, matchRows toLowerCase ci l
                       = match forRows (exactMatch toLowerCase ci)
                                 (filter (fun c => negb (has_parameter c)) l) with
                         | Some r => r
                         | None =>
                             match forRows (parameterMatch toLowerCase ci)
                                     (filter has_parameter l) with
                             | Some r => r
                             | None => Failure (lit "No matching command found")
                             end
                         end) as Hm.
  { intros ci l. unfold matchRows.
    rewrite (@forRows_filter (exactMatch toLowerCase ci)
               (fun c => negb (has_parameter c)) l).
    2:{ intros c Hc. apply negb_false_iff in Hc.
        apply exactMatch_parameterized, Hc. }
    rewrite (@forRows_filter (parameterMatch toLowerCase ci) has_parameter l).
    2:{ intros c Hc. apply parameterMatch_unparameterized, Hc. }
    reflexivity. }
  destruct rows as [|c rows], rows' as [|c' rows'];
    cbn [List.length Nat.eqb]; try reflexivity.
  - exfalso. assert (c' :: rows' = []) as H; [|discriminate H].
    apply (@filter_both_nil has_parameter); assumption.
  - exfalso. assert (c :: rows = []) as H; [|discriminate H].
    apply (@filter_both_nil has_parameter); symmetry; assumption.
  - f_equal. rewrite !Hm, Hn, Hp. reflexivity.
Qed.

(** X9: a row flagged as having a parameter whose [parameter_name] is
    [null] or the empty string never matches: the first loop skips it for
    its flag, the second for its missing name.  With other rows present the
    result is the one without the row; alone it gives a failure. *)
Theorem parameter_without_name_never_matches (c : Command) :
  has_parameter c = true ->
  toBoolean (column (parameter_name c)) = false ->
  (forall userInput pre post,
     pre ++ post <> [] ->
     findMatchingCommand toLowerCase userInput (Rows (pre ++ c :: post))
     = findMatchingCommand toLowerCase userInput (Rows (pre ++ post))) /\
  (forall userInput,
     exists m,
       findMatchingCommand toLowerCase userInput (Rows [c]) = Return (Failure m)).
Proof.
  intros Hp Hn.
  assert (forall ci, exactMatch toLowerCase ci c = None) as He
    by (intros ci; apply exactMatch_parameterized, Hp).
  assert (forall ci, parameterMatch toLowerCase ci c = None) as Hq
    by (intros ci; unfold parameterMatch; rewrite Hp, Hn; reflexivity).
  split.
  - intros userInput pre post Hne. apply row_skipped; assumption.
  - intros userInput. apply row_alone; assumption.
Qed.

End MoreResults.

Lemma voice_path_agrees_with_text_path_witness :
  matchTranscription toLowerCase_ascii (VString (lit "  lights on ")) (Rows [lights_on])
  = Matching (findMatchingCommand toLowerCase_ascii (VString (lit "  lights on "))
                (Rows [lights_on])).
Proof.
  apply (proj1 (@voice_path_agrees_with_text_path toLowerCase_ascii
                  (lit "  lights on ") (Rows [lights_on]))).
  vm_compute. discriminate.
Defined.

Lemma order_between_phases_irrelevant_witness :
  findMatchingCommand toLowerCase_ascii (VString (lit "play song"))
    (Rows [play_jazz; play_song workflow])
  = findMatchingCommand toLowerCase_ascii (VString (lit "play song"))
      (Rows [play_song workflow; play_jazz]).
Proof.
  apply (@order_between_phases_irrelevant toLowerCase_ascii
           (VString (lit "play song"))
           [play_song workflow; play_jazz] [play_jazz; play_song workflow]);
    reflexivity.
Defined.

Lemma parameter_without_name_never_matches_witness :
  findMatchingCommand toLowerCase_ascii (VString (lit "remind me")) (Rows [no_name; lights_on])
  = findMatchingCommand toLowerCase_ascii (VString (lit "remind me")) (Rows [lights_on]).
Proof.
  apply (proj1 (@parameter_without_name_never_matches toLowerCase_ascii no_name
                  eq_refl eq_refl) (VString (lit "remind me")) [] [lights_on]).
  discriminate.
Defined.

(** ** Slices, occurrences and the remaining functions *)

Lemma substring_prefix (a b : jsstring) :
  substring (a ++ b) 0 (length a) = a.
Proof.
  change 0%Z with (Z.of_nat 0). unfold length at 1.
  rewrite substring_slice by (rewrite length_app; lia).
  rewrite Nat.sub_0_r. simpl. rewrite firstn_app, firstn_all, Nat.sub_diag.
  simpl. apply app_nil_r.
Qed.

Lemma substring_suffix (a b : jsstring) :
  substringFrom (a ++ b) (length a) = b.
Proof.
  unfold substringFrom. unfold length.
  rewrite substring_slice by (rewrite length_app; lia).
  rewrite skipn_app, skipn_all, Nat.sub_diag. simpl.
  apply firstn_all2. rewrite length_app. lia.
Qed.

Lemma substring_middle (a v b : jsstring) :
  substring (a ++ v ++ b) (length a) (length (a ++ v ++ b) - length b) = v.
Proof.
  unfold length.
  replace (Z.of_nat (List.length (a ++ v ++ b)) - Z.of_nat (List.length b))%Z
    with (Z.of_nat (List.length a + List.length v))
    by (rewrite !length_app; lia).
  rewrite substring_slice by (rewrite !length_app; lia).
  rewrite skipn_app, skipn_all, Nat.sub_diag. simpl.
  replace (List.length a + List.length v - List.length a)%nat
    with (List.length v) by lia.
  rewrite firstn_app, firstn_all, Nat.sub_diag. simpl. apply app_nil_r.
Qed.

(** The first occurrence of a text is where it stands after a beginning
    that does not hold its first unit. *)
Lemma indexOfFrom_first (before after t : jsstring) (x : N) (i : Z) :
  ~ In x before ->
  indexOfFrom (before ++ (x :: t) ++ after) (x :: t) i = (i + length before)%Z.
Proof.
  revert i. induction before as [|y before IH]; intros i Hx.
  - assert (isPrefix (x :: t) ([] ++ (x :: t) ++ after) = true) as Hp
      by (apply isPrefix_app; exists after; reflexivity).
    destruct after; simpl in *; rewrite Hp; unfold length; simpl; lia.
  - assert (y <> x) as Hy by (intros ->; apply Hx; left; reflexivity).
    apply N.eqb_neq in Hy. rewrite N.eqb_sym in Hy.
    cbn [app indexOfFrom isPrefix]. rewrite Hy. cbn [andb].
    rewrite IH by (intros H; apply Hx; right; exact H).
    unfold length. cbn [List.length]. lia.
Qed.

Lemma toLowerCase_ascii_app (a b : jsstring) :
  toLowerCase_ascii (a ++ b) = toLowerCase_ascii a ++ toLowerCase_ascii b.
Proof. apply map_app. Qed.

Lemma toLowerCase_ascii_length (a b : jsstring) :
  toLowerCase_ascii a = toLowerCase_ascii b -> length a = length b.
Proof.
  intros H. unfold length. f_equal.
  rewrite <- (length_map lowerUnit a), <- (length_map lowerUnit b).
  unfold toLowerCase_ascii in H. rewrite H. reflexivity.
Qed.

(** X10: the upload filter accepts a file exactly when its MIME type begins
    with [audio/] or is [application/octet-stream], or its name ends with
    [.wav] or with [.webm]; each of the four suffices whatever the other
    field holds.  Every other file is refused, always with the message
    [Only audio files are allowed]. *)
Theorem fileFilter_accepts_audio (file : UploadedFile) :
  (fileFilter file = Accepted <->
   (exists rest, mimetype file = lit "audio/" ++ rest) \/
   mimetype file = lit "application/octet-stream" \/
   (exists stem, originalname file = stem ++ lit ".wav") \/
   (exists stem, originalname file = stem ++ lit ".webm")) /\
  (fileFilter file <> Accepted <->
   fileFilter file = Refused (lit "Only audio files are allowed")).
Proof.
  unfold fileFilter.
  rewrite <- startsWith_app, <- streq_eq, <- !endsWith_app.
  destruct (startsWith _ _), (streq _ _), (endsWith _ (lit ".wav")),
    (endsWith _ (lit ".webm")); cbn [orb]; split; split;
    try tauto; try discriminate; try congruence; intros H; try reflexivity;
    repeat destruct H as [H|H]; discriminate.
Qed.

Section Completeness.

Variable toLowerCase : jsstring -> jsstring.

(** X11: a row whose parameter name is not empty but is cleaned to the empty
    string (a name made of punctuation, as a single dash) has an empty
    prefix and its whole cleaned name as suffix: alone, it matches every
    input that ends with its name, the name itself included, and gives what
    comes before the name as the parameter. *)
Theorem parameter_cleaned_away_matches_by_suffix (userInput : value) (c : Command) :
  let ci := cleanTranscribedText userInput in
  let name := cleanTranscribedText (VString (command_name c)) in
  toLowerCase [] = [] ->
  ci <> [] ->
  has_parameter c = true ->
  toBoolean (column (parameter_name c)) = true ->
  cleanTranscribedText (column (parameter_name c)) = [] ->
  findMatchingCommand toLowerCase userInput (Rows [c])
  = Return (if endsWith (toLowerCase ci) (toLowerCase name)
            then Success (command_name c)
                   (Some (trim (substring ci 0 (length ci - length name))))
                   (workflow_id c)
                   (lit "Ready to execute workflow with parameter")
            else Failure (lit "No matching command found")).
Proof.
  intros ci name Hnil Hci Hp Hb Hclean.
  rewrite findMatchingCommand_rows; [|exact Hci | discriminate].
  fold ci. unfold matchRows. cbn [forRows].
  rewrite (exactMatch_parameterized toLowerCase ci c Hp).
  unfold parameterMatch. rewrite Hp, Hb. cbn [andb].
  assert (paramIndexOf toLowerCase c = 0%Z) as Hi.
  { unfold paramIndexOf. rewrite Hclean, Hnil. unfold indexOf.
    destruct (toLowerCase (cleanTranscribedText (VString (command_name c))));
      reflexivity. }
  assert (prefixOf toLowerCase c = []) as Hpre.
  { unfold prefixOf. rewrite Hi. apply (substring_prefix [] _). }
  assert (suffixOf toLowerCase c = name) as Hsuf.
  { unfold suffixOf. rewrite Hi, Hclean. apply (substring_suffix [] name). }
  rewrite Hi, Hpre, Hsuf, Hnil. cbn [Z.eqb startsWith isPrefix andb].
  fold name. destruct (endsWith _ _); reflexivity.
Qed.

(** X12: on ASCII text the parameterized match is complete.  When the
    cleaned input is a beginning equal to the prefix of the row up to case,
    then any text, then an end equal to the suffix up to case, the row
    alone matches and the parameter is that text, trimmed. *)
Theorem parameter_between_prefix_and_suffix (userInput : value) (c : Command)
    (before text after : jsstring) :
  lowercasesAscii toLowerCase ->
  asciiValue userInput ->
  asciiCommand c ->
  has_parameter c = true ->
  toBoolean (column (parameter_name c)) = true ->
  paramIndexOf toLowerCase c <> (-1)%Z ->
  cleanTranscribedText userInput = before ++ text ++ after ->
  before ++ text ++ after <> [] ->
  toLowerCase_ascii before = toLowerCase_ascii (prefixOf toLowerCase c) ->
  toLowerCase_ascii after = toLowerCase_ascii (suffixOf toLowerCase c) ->
  findMatchingCommand toLowerCase userInput (Rows [c])
  = Return (Success (command_name c) (Some (trim text)) (workflow_id c)
              (lit "Ready to execute workflow with parameter")).
Proof.
  intros Hlow Hin Hc Hp Hb Hi Hci Hne Hpre Hsuf.
  rewrite findMatchingCommand_rows; [|rewrite Hci; exact Hne | discriminate].
  unfold matchRows. cbn [forRows].
  rewrite (exactMatch_parameterized toLowerCase _ c Hp).
  assert (isAscii (cleanTranscribedText userInput)) as Hai
    by (apply isAscii_clean, Hin).
  assert (isAscii (cleanTranscribedText (VString (command_name c)))) as Han
    by (apply isAscii_clean, asciiValue_string; exact (proj1 Hc)).
  assert (parameterMatch toLowerCase (cleanTranscribedText userInput) c
          = Some (Success (command_name c) (Some (trim text)) (workflow_id c)
                    (lit "Ready to execute workflow with parameter"))) as ->;
    [|reflexivity].
  apply parameterMatch_some.
  rewrite (Hlow _ Hai).
  rewrite (Hlow (prefixOf toLowerCase c)) by (apply Forall_substring, Han).
  rewrite (Hlow (suffixOf toLowerCase c)) by (apply Forall_substring, Han).
  rewrite Hci, !toLowerCase_ascii_app, Hpre, Hsuf.
  repeat split; try assumption.
  - apply startsWith_app. eauto.
  - apply endsWith_app. eexists. rewrite app_assoc. reflexivity.
  - rewrite <- (@toLowerCase_ascii_length _ _ Hpre), <- (@toLowerCase_ascii_length _ _ Hsuf).
    rewrite substring_middle. reflexivity.
Qed.

(** X13: the prototype extracts what stands for the placeholder.  For a
    template with the placeholder after a beginning without an opening
    brace, and an ASCII input made of that beginning, any text and the end
    of the template, both up to case, the outcome is a match whose
    parameter is that text, untrimmed. *)
Theorem testMatch_extracts_parameter (tbefore tafter before text after : jsstring) :
  lowercasesAscii toLowerCase ->
  isAscii tbefore -> isAscii tafter -> isAscii (before ++ text ++ after) ->
  ~ In 123%N tbefore ->
  toLowerCase_ascii before = toLowerCase_ascii tbefore ->
  toLowerCase_ascii after = toLowerCase_ascii tafter ->
  testMatch toLowerCase (tbefore ++ placeholder ++ tafter) (before ++ text ++ after)
  = Match text.
Proof.
  intros Hlow Hab Haa Hai Hbrace Hpre Hsuf. unfold testMatch.
  assert (indexOf (tbefore ++ placeholder ++ tafter) placeholder = length tbefore)
    as Hi by (apply (@indexOfFrom_first tbefore tafter _ 123%N 0%Z Hbrace)).
  rewrite Hi.
  destruct (Z.eqb_spec (length tbefore) (-1)) as [H|_];
    [pose proof (length_nonneg tbefore); lia|].
  rewrite substring_prefix.
  replace (tbefore ++ placeholder ++ tafter) with ((tbefore ++ placeholder) ++ tafter)
    by (symmetry; apply app_assoc).
  replace (length tbefore + 13)%Z with (length (tbefore ++ placeholder))
    by (unfold length; rewrite length_app; unfold placeholder; simpl; lia).
  rewrite substring_suffix.
  rewrite (Hlow _ Hai), (Hlow _ Hab), (Hlow _ Haa).
  rewrite !toLowerCase_ascii_app, Hpre, Hsuf.
  assert (startsWith (toLowerCase_ascii tbefore ++ toLowerCase_ascii text
                      ++ toLowerCase_ascii tafter) (toLowerCase_ascii tbefore) = true)
    as -> by (apply startsWith_app; eauto).
  assert (endsWith (toLowerCase_ascii tbefore ++ toLowerCase_ascii text
                    ++ toLowerCase_ascii tafter) (toLowerCase_ascii tafter) = true)
    as -> by (apply endsWith_app; eexists; rewrite app_assoc; reflexivity).
  cbn [andb].
  rewrite <- (@toLowerCase_ascii_length _ _ Hpre), <- (@toLowerCase_ascii_length _ _ Hsuf).
  rewrite substring_middle. reflexivity.
Qed.

End Completeness.

Lemma parameter_cleaned_away_matches_by_suffix_witness :
  findMatchingCommand toLowerCase_ascii (VString (lit "please open door")) (Rows [open_dash])
  = Return (Success (lit "open door") (Some (lit "please")) workflow
              (lit "Ready to execute workflow with parameter")).
Proof.
  exact (@parameter_cleaned_away_matches_by_suffix toLowerCase_ascii
           (VString (lit "please open door")) open_dash
           eq_refl ltac:(vm_compute; discriminate) eq_refl eq_refl eq_refl).
Defined.

Lemma parameter_between_prefix_and_suffix_witness :
  findMatchingCommand toLowerCase_ascii (VString (lit "search  Batman on YOUTUBE"))
    (Rows [search_example workflow])
  = Return (Success (lit "Search Example On Youtube") (Some (lit "Batman")) workflow
              (lit "Ready to execute workflow with parameter")).
Proof.
  apply (@parameter_between_prefix_and_suffix toLowerCase_ascii
           (VString (lit "search  Batman on YOUTUBE")) (search_example workflow)
           (lit "search ") (lit "Batman") (lit " on YOUTUBE"));
    try apply lowercasesAscii_ascii; try reflexivity; ascii_text;
    try (vm_compute; discriminate).
Defined.

Lemma testMatch_extracts_parameter_witness :
  testMatch toLowerCase_ascii (lit "Search {{parameter}} on Youtube")
    (lit "Search Flash on Youtube")
  = Match (lit "Flash").
Proof.
  apply (@testMatch_extracts_parameter toLowerCase_ascii
           (lit "Search ") (lit " on Youtube")
           (lit "Search ") (lit "Flash") (lit " on Youtube"));
    try apply lowercasesAscii_ascii; try reflexivity; ascii_text.
  vm_compute. intuition discriminate.
Defined.
